(** * p3/management/commands/talk_abstracts.py

    A shallow embedding of the [talk_abstracts] management command: the
    helpers that derive the per-talk fields, the ticket checks behind the
    [have_tickets] field, and [Command.handle], which groups, sorts and
    prints the talks.

    Python values are modelled as follows.
    - A [unicode] object is the list of its code points; a Python 2 [str]
      is the list of its bytes.  Both are lists of [N].
    - A Django queryset that has been evaluated is the list of its rows.
    - Raising is a result in [exn + A]; what is printed is a list of
      output events. *)

From Stdlib Require Import String Ascii NArith ZArith Bool Lia List.
From Stdlib Require Import Permutation Sorted.
Import ListNotations.

Local Open Scope N_scope.

(** ** Text *)

Module Text.

(** Code points of a [unicode] object. *)
Definition unicode := list N.

(** Bytes of a Python 2 [str]. *)
Definition str := list N.

(** An ASCII literal, as written in the source. *)
Definition u (s : string) : list N :=
  map N_of_ascii (list_ascii_of_string s).

Definition SPACE : N := 32.
Definition QUOTE : N := 34.

(** Whitespace as [unicode.strip()] sees it in Python 2.7. *)
Definition isspace (c : N) : bool :=
  ((9 <=? c) && (c <=? 13)) || ((28 <=? c) && (c <=? 32))
  || (c =? 133) || (c =? 160) || (c =? 5760) || (c =? 6158)
  || ((8192 <=? c) && (c <=? 8202))
  || (c =? 8232) || (c =? 8233) || (c =? 8239) || (c =? 8287)
  || (c =? 12288).

Fixpoint lstrip (s : unicode) : unicode :=
  match s with
  | [] => []
  | c :: r => if isspace c then lstrip r else s
  end.

Definition rstrip (s : unicode) : unicode := rev (lstrip (rev s)).

(** [s.strip()] *)
Definition strip (s : unicode) : unicode := rstrip (lstrip s).

(** [s.replace("  ", " ")]: one left-to-right pass over the
    non-overlapping occurrences. *)
Fixpoint replace_double_space (s : unicode) : unicode :=
  match s with
  | [] => []
  | c :: r =>
      match r with
      | c' :: r' =>
          if (c =? SPACE) && (c' =? SPACE)
          then SPACE :: replace_double_space r'
          else c :: replace_double_space r
      | [] => [c]
      end
  end.

(** [s[0]] and [s[-1]]; the default stands for an [IndexError], which
    the callers below never reach (see [clean_title_index_in_range]). *)
Definition first_char (s : unicode) : N := hd 0 s.
Definition last_char (s : unicode) : N := last s 0.

(** [s[1:-1]] *)
Definition slice_1_m1 (s : unicode) : unicode :=
  skipn 1 (firstn (length s - 1)%nat s).

(** [sep.join(parts)] *)
Fixpoint join (sep : list N) (parts : list (list N)) : list N :=
  match parts with
  | [] => []
  | [p] => p
  | p :: rest => p ++ sep ++ join sep rest
  end.

(** [s.encode('utf-8')] *)
Definition encode_char (c : N) : str :=
  if c <? 128 then [c]
  else if c <? 2048 then
    [N.lor 192 (N.shiftr c 6); N.lor 128 (N.land c 63)]
  else if c <? 65536 then
    [N.lor 224 (N.shiftr c 12);
     N.lor 128 (N.land (N.shiftr c 6) 63);
     N.lor 128 (N.land c 63)]
  else
    [N.lor 240 (N.shiftr c 18);
     N.lor 128 (N.land (N.shiftr c 12) 63);
     N.lor 128 (N.land (N.shiftr c 6) 63);
     N.lor 128 (N.land c 63)].

Definition encode_utf8 (s : unicode) : str := flat_map encode_char s.

(** [str.title()] on bytes, in the C locale: a cased byte that follows
    an uncased one is upper-cased, one that follows a cased byte is
    lower-cased. *)
Definition islower (c : N) : bool := (97 <=? c) && (c <=? 122).
Definition isupper (c : N) : bool := (65 <=? c) && (c <=? 90).

Fixpoint title_from (previous_is_cased : bool) (s : str) : str :=
  match s with
  | [] => []
  | c :: r =>
      if islower c then
        (if previous_is_cased then c else c - 32) :: title_from true r
      else if isupper c then
        (if previous_is_cased then c + 32 else c) :: title_from true r
      else c :: title_from false r
  end.

Definition title (s : str) : str := title_from false s.

(** Comparison of two [str] (or two [unicode]) objects: element-wise,
    the shorter first on a common prefix. *)
Definition cmp (a b : list N) : comparison := list_compare N.compare a b.
Definition leb (a b : list N) : bool :=
  match cmp a b with Gt => false | _ => true end.
Definition ltb (a b : list N) : bool :=
  match cmp a b with Lt => true | _ => false end.
Definition eqb (a b : list N) : bool :=
  match cmp a b with Eq => true | _ => false end.

End Text.
Import Text.

(** ** [clean_title] *)

(** [clean_title(title)], lines 104-116. *)
Definition clean_title (title : unicode) : unicode :=
  let title := strip title in
  match title with
  | [] => title
  | _ =>
      let title := strip title in
      let title := replace_double_space title in
      if (first_char title =? QUOTE) && (last_char title =? QUOTE)
      then slice_1_m1 title
      else title
  end.

(** The description of [cleanTitle] in the specification: trim, one
    pass over the double spaces, and one quote off each end when the
    trimmed string starts and ends with a quote. *)
Definition starts_with_quote (s : unicode) : bool :=
  match s with
  | c :: _ => c =? QUOTE
  | [] => false
  end.

Definition ends_with_quote (s : unicode) : bool := starts_with_quote (rev s).

Definition strip_one_quote_each_end (s : unicode) : unicode :=
  removelast (tl s).

Definition clean_title_spec (title : unicode) : unicode :=
  let trimmed := strip title in
  let collapsed := replace_double_space trimmed in
  if starts_with_quote trimmed && ends_with_quote trimmed
  then strip_one_quote_each_end collapsed
  else collapsed.

(** ** The models read by the command *)

(** Modelled from the spec: the model classes of [conference.models],
    [p3.models] and [assopy.models], which are declared outside this
    file.  There is one record per class, with the fields and related rows
    the command reads; a foreign key that the code follows holds the row
    it points to. *)

Module AttendeeProfile.
(** [user.attendeeprofile], with [p3_profile.twitter] next to it. *)
Record t := { company : unicode; p3_profile_twitter : unicode }.
End AttendeeProfile.

Module User.
Record t := {
  id : Z;
  first_name : unicode;
  last_name : unicode;
  email : unicode;
  (** [None] when the user has no profile. *)
  attendeeprofile : option AttendeeProfile.t
}.
End User.

Module Speaker.
Record t := { user : User.t }.
End Speaker.

Module Fare.
Record t := { code : unicode }.
End Fare.

Module Ticket.
(** [conference.models.Ticket] *)
Record t := { id : Z; user_id : Z; fare : Fare.t }.
End Ticket.

Module TicketConference.
(** [p3.models.TicketConference]; the column [ticket_id] is
    [Ticket.id ticket].  [assigned_to] is empty when the ticket has not
    been reassigned. *)
Record t := { ticket : Ticket.t; assigned_to : unicode }.
End TicketConference.

Module OrderItem.
(** [ticket] is [None] for an item that is not a ticket. *)
Record t := { ticket : option Ticket.t }.
End OrderItem.

Module Order.
(** [assopy.models.Order]; [user] is the key of the buyer. *)
Record t := {
  user : Z;
  _complete : bool;
  orderitem_set : list OrderItem.t
}.
End Order.

Module Track.
Record t := { title : unicode }.
End Track.

Module Event.
(** [time_range] holds [str(timerange[0])] and [str(timerange[1])]. *)
Record t := { tracks : list Track.t; time_range : str * str }.
End Event.

Module Tag.
(** [name] is [str(tag)]. *)
Record t := { name : str; category : unicode }.
End Tag.

Module VotoTalk.
Record t := { talk : Z; user_id : Z; vote : Z }.
End VotoTalk.

Module Talk.
Record t := {
  id : Z;
  conference : str;
  status : unicode;
  type : unicode;
  admin_type : unicode;
  title : unicode;
  sub_title : unicode;
  duration : Z;
  abstract_short : unicode;
  abstract_extra : unicode;
  (** the bodies of [abstracts.all()] *)
  abstracts : list unicode;
  tags : list Tag.t;
  p3_talk_sub_community : unicode;
  (** [speakers.all()] and [get_all_speakers()] *)
  speakers : list Speaker.t;
  get_all_speakers : list Speaker.t;
  get_event : option Event.t;
  get_absolute_url : str;
  get_admin_type_display : unicode;
  get_type_display : unicode;
  get_level_display : unicode;
  get_language_display : unicode
}.
End Talk.

(** The rows of the tables the command queries. *)
Record Store := {
  store_talks : list Talk.t;
  store_tickets : list Ticket.t;
  store_ticket_conferences : list TicketConference.t;
  store_orders : list Order.t;
  store_votes : list VotoTalk.t
}.

(** ** Exceptions and results *)

(** The exceptions the command meets: the [RuntimeError] of line 53 with
    the rows found, the [AttributeError] of an attribute read on [None],
    the [CommandError] of line 187, and a failure of the store. *)
Inductive exn :=
| RuntimeError (tickets : list TicketConference.t)
| AttributeError
| CommandError (msg : string)
| DatabaseError (msg : string).

Definition result (A : Type) : Type := exn + A.

Definition Ok {A : Type} (a : A) : result A := inr a.
Definition Raise {A : Type} (e : exn) : result A := inl e.

(** Truth value of a list (a queryset, a string): it is not empty. *)
Definition truthy {A : Type} (l : list A) : bool :=
  match l with
  | [] => false
  | _ :: _ => true
  end.

(** [s.startswith(prefix)] *)
Fixpoint startswith (s prefix : unicode) : bool :=
  match prefix, s with
  | [], _ => true
  | _ :: _, [] => false
  | p :: prefix', c :: s' => (c =? p) && startswith s' prefix'
  end.

(** ** The ticket checks *)

(** [get_orders_from(user)], lines 38-39. *)
Definition get_orders_from (db : Store) (user : User.t) : list Order.t :=
  filter (fun o => Order._complete o && (Order.user o =? User.id user)%Z)
         (store_orders db).

(** [get_tickets_assigned_to(user)], lines 42-43. *)
Definition get_tickets_assigned_to (db : Store) (user : User.t)
  : list TicketConference.t :=
  filter (fun t => Text.eqb (TicketConference.assigned_to t) (User.email user))
         (store_ticket_conferences db).

(** [p3_models.TicketConference.objects.filter(ticket_id=ticket.id)] *)
Definition ticket_conferences_of (db : Store) (ticket : Ticket.t)
  : list TicketConference.t :=
  filter (fun t =>
            (Ticket.id (TicketConference.ticket t) =? Ticket.id ticket)%Z)
         (store_ticket_conferences db).

(** [is_ticket_assigned_to_someone_else(ticket, user)], lines 46-66. *)
Definition is_ticket_assigned_to_someone_else
    (db : Store) (ticket : Ticket.t) (user : User.t) : result bool :=
  let tickets := ticket_conferences_of db ticket in
  match tickets with
  | [] => Ok false
  | tkt :: more =>
      if (1 <? length tickets)%nat then Raise (RuntimeError tickets)
      else if negb (Ticket.user_id (TicketConference.ticket tkt)
                    =? User.id user)%Z
      then Ok true
      else if negb (truthy (TicketConference.assigned_to tkt)) then Ok false
      else if Text.eqb (TicketConference.assigned_to tkt) (User.email user)
      then Ok false
      else Ok true
  end.

(** [user.ticket_set.all()] *)
Definition ticket_set (db : Store) (user : User.t) : list Ticket.t :=
  filter (fun t => (Ticket.user_id t =? User.id user)%Z) (store_tickets db).

(** The comprehension of lines 77-80. *)
Definition order_tkts (orders : list Order.t) : list Ticket.t :=
  flat_map
    (fun order =>
       flat_map
         (fun ordi =>
            match OrderItem.ticket ordi with
            | Some tkt => [tkt]
            | None => []
            end)
         (Order.orderitem_set order))
    orders.

(** The tickets [has_ticket] goes through, lines 74-81. *)
Definition user_tickets (db : Store) (user : User.t) : list Ticket.t :=
  let user_tickets := ticket_set db user in
  let orders := get_orders_from db user in
  if truthy orders then user_tickets ++ order_tkts orders else user_tickets.

(** The loop of lines 83-88. *)
Fixpoint has_ticket_loop (db : Store) (user : User.t)
    (user_tickets : list Ticket.t) : result bool :=
  match user_tickets with
  | [] => Ok false
  | tkt :: rest =>
      if startswith (Fare.code (Ticket.fare tkt)) (u "T") then
        match is_ticket_assigned_to_someone_else db tkt user with
        | inl e => Raise e
        | inr false => Ok true
        | inr true => has_ticket_loop db user rest
        end
      else has_ticket_loop db user rest
  end.

(** [has_ticket(user)], lines 69-88. *)
Definition has_ticket (db : Store) (user : User.t) : result bool :=
  let tickets := get_tickets_assigned_to db user in
  if truthy tickets then Ok true
  else has_ticket_loop db user (user_tickets db user).

(** ** The report and what is printed *)

Module Report.
(** The dictionary built for one talk, lines 232-259.  [user_votes] is
    present only when the votes were asked for. *)
Record t := {
  id : Z;
  admin_type : str;
  type : str;
  duration : Z;
  level : str;
  track_title : str;
  timerange : str;
  tags : list str;
  url : str;
  tag_categories : list str;
  sub_community : str;
  title : str;
  sub_title : str;
  status : str;
  language : str;
  have_tickets : list bool;
  abstract_long : list str;
  abstract_short : str;
  abstract_extra : str;
  speakers : str;
  companies : str;
  emails : str;
  twitters : str;
  user_votes : option (list (Z * Z))
}.

Definition set_user_votes (r : t) (v : list (Z * Z)) : t :=
  {| id := id r; admin_type := admin_type r; type := type r;
     duration := duration r; level := level r;
     track_title := track_title r; timerange := timerange r;
     tags := tags r; url := url r; tag_categories := tag_categories r;
     sub_community := sub_community r; title := title r;
     sub_title := sub_title r; status := status r;
     language := language r; have_tickets := have_tickets r;
     abstract_long := abstract_long r;
     abstract_short := abstract_short r;
     abstract_extra := abstract_extra r; speakers := speakers r;
     companies := companies r; emails := emails r;
     twitters := twitters r; user_votes := Some v |}.
End Report.

(** An [OrderedDict]: the items in insertion order, keys distinct. *)
Module OrderedDict.
Section Ops.
Context {K V : Type} (eqb : K -> K -> bool).

Definition t := list (K * V).

(** [d[k] = v]: in place when [k] is a key already, at the end
    otherwise. *)
Fixpoint set (d : t) (k : K) (v : V) : t :=
  match d with
  | [] => [(k, v)]
  | (k', v') :: rest =>
      if eqb k' k then (k', v) :: rest else (k', v') :: set rest k v
  end.

Fixpoint get (d : t) (k : K) : option V :=
  match d with
  | [] => None
  | (k', v') :: rest => if eqb k' k then Some v' else get rest k
  end.

Definition keys (d : t) : list K := map fst d.
Definition values (d : t) : list V := map snd d.

(** A run of assignments [d[k] = v], as the grouping loops make. *)
Definition set_all (d : t) (kvs : list (K * V)) : t :=
  fold_left (fun d kv => set d (fst kv) (snd kv)) kvs d.
End Ops.
Arguments t : clear implicits.
End OrderedDict.

(** [sessions]: bucket name to talk key to report. *)
Definition Sessions := OrderedDict.t unicode (OrderedDict.t Z Report.t).

(** What the command writes to standard output. *)
Inductive output :=
| PrintTraceback (e : exn)
    (** [print(traceback.format_exc())] while [e] is being handled *)
| PrintNotScheduled (talk : Talk.t)
    (** ['ERROR: Talk {} is not scheduled.'] *)
| PrintJson (sessions : Sessions)
    (** [print(json.dumps(sessions, indent=2))] *).

(** A computation that prints and then returns or raises. *)
Definition M (A : Type) : Type := list output * result A.

Definition ret {A : Type} (a : A) : M A := ([], Ok a).
Definition raise {A : Type} (e : exn) : M A := ([], Raise e).
Definition print (o : output) : M unit := ([o], Ok tt).
Definition lift {A : Type} (r : result A) : M A := ([], r).

Definition bind {A B : Type} (m : M A) (k : A -> M B) : M B :=
  match m with
  | (out, inl e) => (out, inl e)
  | (out, inr a) => let (out', r) := k a in (out ++ out', r)
  end.

Declare Scope py_scope.
Delimit Scope py_scope with py.
Notation "x <- m ;; k" := (bind m (fun x => k))
  (at level 61, m at next level, right associativity) : py_scope.
Notation "m ;;; k" := (bind m (fun _ => k))
  (at level 61, right associativity) : py_scope.
Local Open Scope py_scope.

(** ** [have_tickets] *)

(** The loop of lines 94-99 over a per-user check: the check's answer is
    appended; an exception of the check is printed and raised again. *)
Fixpoint have_tickets_loop (check : User.t -> result bool)
    (usrs : list Speaker.t) (have_tkt : list bool) : M (list bool) :=
  match usrs with
  | [] => ret have_tkt
  | user :: rest =>
      match check (Speaker.user user) with
      | inr b => have_tickets_loop check rest (have_tkt ++ [b])
      | inl e => print (PrintTraceback e) ;;; raise e
      end
  end.

(** Lines 91-101 with the check left open. *)
Definition have_tickets_with (check : User.t -> result bool)
    (talk : Talk.t) : M (list bool) :=
  let usrs := Talk.get_all_speakers talk in
  have_tickets_loop check usrs [].

(** [have_tickets(talk)], lines 91-101. *)
Definition have_tickets (db : Store) (talk : Talk.t) : M (list bool) :=
  have_tickets_with (has_ticket db) talk.

(** ** Module globals *)

(** The names bound at module level that the functions read. *)
Record Globals := { VERBOSE : bool }.

(** Line 17. *)
Definition module_globals : Globals := {| VERBOSE := false |}.

(** ** The other helpers *)

(** [speaker_listing(talk)], lines 21-24. *)
Definition speaker_listing (talk : Talk.t) : unicode :=
  join (u ", ")
       (map (fun speaker =>
               User.first_name (Speaker.user speaker) ++ u " " ++
               User.last_name (Speaker.user speaker))
            (Talk.get_all_speakers talk)).

(** [speaker_emails(talk)], lines 27-29. *)
Definition speaker_emails (talk : Talk.t) : unicode :=
  join (u ", ")
       (map (fun speaker => User.email (Speaker.user speaker))
            (Talk.get_all_speakers talk)).

(** Evaluation of a generator whose items may raise. *)
Fixpoint collect {A B : Type} (f : A -> result B) (l : list A)
  : result (list B) :=
  match l with
  | [] => Ok []
  | a :: rest =>
      match f a with
      | inl e => Raise e
      | inr b =>
          match collect f rest with
          | inl e => Raise e
          | inr bs => Ok (b :: bs)
          end
      end
  end.

(** [speaker_twitters(talk)], lines 32-35: reading [p3_profile] of a
    missing profile raises. *)
Definition speaker_twitters (talk : Talk.t) : result unicode :=
  match
    collect
      (fun speaker =>
         match User.attendeeprofile (Speaker.user speaker) with
         | Some profile =>
             Ok (u "@" ++ AttendeeProfile.p3_profile_twitter profile)
         | None => Raise AttributeError
         end)
      (Talk.get_all_speakers talk)
  with
  | inl e => Raise e
  | inr handles => Ok (join (u ", ") handles)
  end.

(** [talk_track_title(talk)], lines 119-123. *)
Definition talk_track_title (talk : Talk.t) : unicode :=
  match Talk.get_event talk with
  | None => []
  | Some event => join (u ", ") (map Track.title (Event.tracks event))
  end.

(** [talk_schedule(talk)], lines 126-133; [VERBOSE] is read from the
    module globals. *)
Definition talk_schedule (globals : Globals) (talk : Talk.t) : M str :=
  match Talk.get_event talk with
  | None =>
      (if VERBOSE globals then print (PrintNotScheduled talk) else ret tt) ;;;
      ret []
  | Some event =>
      let timerange := Event.time_range event in
      ret (fst timerange ++ u ", " ++ snd timerange)
  end.

(** [talk_votes(talk)], lines 136-141: one [{user_id: vote}] per row. *)
Definition talk_votes (db : Store) (talk : Talk.t) : list (Z * Z) :=
  map (fun v => (VotoTalk.user_id v, VotoTalk.vote v))
      (filter (fun v => (VotoTalk.talk v =? Talk.id talk)%Z) (store_votes db)).

(** ** Sorting *)

Section Sort.
Context {A : Type} (key : A -> list N).

Fixpoint insert (x : A) (l : list A) : list A :=
  match l with
  | [] => [x]
  | y :: rest =>
      if Text.leb (key x) (key y) then x :: l else y :: insert x rest
  end.

(** [l.sort(key=key)] and [sorted(l, key=key)]: ascending on the keys,
    items with equal keys in their original order. *)
Definition sort_by (l : list A) : list A := fold_right insert [] l.
End Sort.

(** [sorted(l)] *)
Definition sorted (l : list unicode) : list unicode := sort_by (fun x => x) l.

(** [set(l)]: each element once.  The order in which a set is iterated is
    not specified; here it is the order of the first occurrences, and
    [sorted] erases it (see [sorted_set_any_order]). *)
Fixpoint set_of (l : list unicode) : list unicode :=
  match l with
  | [] => []
  | x :: rest =>
      x :: filter (fun y => negb (Text.eqb y x)) (set_of rest)
  end.

(** [speaker_companies(talk)], lines 144-149. *)
Definition speaker_companies (talk : Talk.t) : unicode :=
  let companies :=
    sorted
      (set_of
         (flat_map
            (fun speaker =>
               match User.attendeeprofile (Speaker.user speaker) with
               | Some profile => [AttendeeProfile.company profile]
               | None => []
               end)
            (Talk.speakers talk)))
  in
  join (u ", ") companies.

(** The description of [speakerCompanies] in the specification: the
    company names that are not empty, of the speakers with a profile,
    each once, in ascending order, joined. *)
Definition speaker_companies_spec (talk : Talk.t) : unicode :=
  join (u ", ")
       (sorted
          (set_of
             (filter truthy
                (flat_map
                   (fun speaker =>
                      match User.attendeeprofile (Speaker.user speaker) with
                      | Some profile => [AttendeeProfile.company profile]
                      | None => []
                      end)
                   (Talk.speakers talk))))).

(** ** [Command.handle] *)

(** The parsed options, lines 153-172. *)
Record Options := {
  verbose : bool;
  talk_status : unicode;
  votes : bool
}.

(** The items of the two dictionaries [handle] iterates, in the order in
    which Python yields them: [dict(models.TALK_ADMIN_TYPE).items()],
    whose pairs are (code, name), and [type_groups.items()].  The
    constant [models.TALK_ADMIN_TYPE] is declared outside this file and
    is left open. *)
Record Iteration := {
  TALK_ADMIN_TYPE_items : list (unicode * unicode);
  type_groups_items : list (unicode * list unicode)
}.

(** The literal of lines 200-206. *)
Definition type_groups : list (unicode * list unicode) :=
  [ (u "talk", [u "t_30"; u "t_45"; u "t_60"]);
    (u "interactive", [u "i_60"]);
    (u "training", [u "r_180"]);
    (u "panel", [u "p_60"; u "p_90"]);
    (u "poster", [u "p_180"]);
    (u "helpdesk", [u "h_180"]) ].

(** [models.Talk.objects.filter(conference=conference, status=status,
    **more)] *)
Definition talks_filter (db : Store) (conference : str) (status : unicode)
    (more : Talk.t -> bool) : list Talk.t :=
  filter (fun talk =>
            Text.eqb (Talk.conference talk) conference &&
            Text.eqb (Talk.status talk) status &&
            more talk)
         (store_talks db).

(** The talks of each bucket, before they are sorted. *)
Definition Talks := OrderedDict.t unicode (list Talk.t).

(** Lines 193-198. *)
Definition group_by_admin_type (db : Store) (conference : str)
    (status : unicode) (items : list (unicode * unicode)) (talks : Talks)
  : Talks :=
  fold_left
    (fun talks item =>
       let '(adm_type, type_name) := item in
       OrderedDict.set Text.eqb talks type_name
         (talks_filter db conference status
            (fun talk => Text.eqb (Talk.admin_type talk) adm_type)))
    items talks.

(** Lines 210-216. *)
Definition grp_talks (db : Store) (conference : str) (status : unicode)
    (grp_types : list unicode) : list Talk.t :=
  flat_map
    (fun talk_type =>
       talks_filter db conference status
         (fun talk =>
            Text.eqb (Talk.type talk) talk_type &&
            Text.eqb (Talk.admin_type talk) []))
    grp_types.

(** Lines 208-218. *)
Definition group_by_type (db : Store) (conference : str)
    (status : unicode) (items : list (unicode * list unicode))
    (talks : Talks) : Talks :=
  fold_left
    (fun talks item =>
       let '(grp_name, grp_types) := item in
       OrderedDict.set Text.eqb talks grp_name
         (grp_talks db conference status grp_types))
    items talks.

(** The key of line 229. *)
Definition sort_key (talk : Talk.t) : str :=
  Text.title (encode_utf8 (clean_title (Talk.title talk))).

(** The dictionary of lines 232-256, its values evaluated in the order
    in which they are written. *)
Definition talk_report (globals : Globals) (db : Store) (conference : str)
    (talk : Talk.t) : M Report.t :=
  timerange <- talk_schedule globals talk ;;
  have_tkt <- have_tickets db talk ;;
  twitters <- lift (speaker_twitters talk) ;;
  ret {|
    Report.id := Talk.id talk;
    Report.admin_type := encode_utf8 (Talk.get_admin_type_display talk);
    Report.type := encode_utf8 (Talk.get_type_display talk);
    Report.duration := Talk.duration talk;
    Report.level := encode_utf8 (Talk.get_level_display talk);
    Report.track_title := encode_utf8 (talk_track_title talk);
    Report.timerange := timerange;
    Report.tags := map Tag.name (Talk.tags talk);
    Report.url :=
      u "https://" ++ conference ++ u ".europython.eu/" ++
      Talk.get_absolute_url talk;
    Report.tag_categories :=
      map (fun tag => encode_utf8 (Tag.category tag)) (Talk.tags talk);
    Report.sub_community := encode_utf8 (Talk.p3_talk_sub_community talk);
    Report.title := encode_utf8 (clean_title (Talk.title talk));
    Report.sub_title := encode_utf8 (clean_title (Talk.sub_title talk));
    Report.status := encode_utf8 (Talk.status talk);
    Report.language := encode_utf8 (Talk.get_language_display talk);
    Report.have_tickets := have_tkt;
    Report.abstract_long := map encode_utf8 (Talk.abstracts talk);
    Report.abstract_short := encode_utf8 (Talk.abstract_short talk);
    Report.abstract_extra := encode_utf8 (Talk.abstract_extra talk);
    Report.speakers := encode_utf8 (speaker_listing talk);
    Report.companies := encode_utf8 (speaker_companies talk);
    Report.emails := encode_utf8 (speaker_emails talk);
    Report.twitters := encode_utf8 twitters;
    Report.user_votes := None
  |}.

(** The loop of lines 230-259 over the sorted talks of one bucket. *)
Fixpoint session_entries (globals : Globals) (db : Store)
    (conference : str) (with_votes : bool) (session_talks : list Talk.t)
    (entries : OrderedDict.t Z Report.t) : M (OrderedDict.t Z Report.t) :=
  match session_talks with
  | [] => ret entries
  | talk :: rest =>
      report <- talk_report globals db conference talk ;;
      let report :=
        if with_votes
        then Report.set_user_votes report (talk_votes db talk)
        else report in
      session_entries globals db conference with_votes rest
        (OrderedDict.set Z.eqb entries (Talk.id talk) report)
  end.

(** The loop of lines 222-259 over [talks.items()]. *)
Fixpoint build_sessions (globals : Globals) (db : Store)
    (conference : str) (with_votes : bool)
    (items : list (unicode * list Talk.t)) (sessions : Sessions)
  : M Sessions :=
  match items with
  | [] => ret sessions
  | (type_name, session_talks) :: rest =>
      if negb (truthy session_talks)
      then build_sessions globals db conference with_votes rest sessions
      else
        entries <-
          session_entries globals db conference with_votes
            (sort_by sort_key session_talks) [] ;;
        build_sessions globals db conference with_votes rest
          (OrderedDict.set Text.eqb sessions type_name entries)
  end.

(** The names of one call of [handle]: the module globals it reads
    through, and the local it binds. *)
Record Frame := {
  frame_globals : Globals;
  local_VERBOSE : option bool
}.

(** [VERBOSE = True] in the body of [handle], line 190.  [handle] has no
    [global VERBOSE] statement, so the assignment binds a name local to
    the call. *)
Definition assign_VERBOSE (frame : Frame) (value : bool) : Frame :=
  {| frame_globals := frame_globals frame; local_VERBOSE := Some value |}.

(** [Command.handle(self, *args, **options)], lines 183-261: the module globals
    after the call, and what the call prints and returns. *)
Definition handle (globals : Globals) (iter : Iteration) (db : Store)
    (args : list str) (options : Options) : Globals * M unit :=
  let frame := {| frame_globals := globals; local_VERBOSE := None |} in
  match args with
  | [] =>
      (frame_globals frame, raise (CommandError "conference not specified"))
  | conference :: _ =>
      let frame :=
        if verbose options then assign_VERBOSE frame true else frame in
      let status := talk_status options in
      let talks :=
        group_by_admin_type db conference status
          (TALK_ADMIN_TYPE_items iter) [] in
      let talks :=
        group_by_type db conference status (type_groups_items iter) talks in
      (frame_globals frame,
       sessions <-
         build_sessions (frame_globals frame) db conference (votes options)
           talks [] ;;
       print (PrintJson sessions))
  end.

(** ** Notions used to state the properties *)

(** A string that does not start with whitespace. *)
Definition no_leading_space (s : unicode) : Prop :=
  match s with
  | [] => True
  | c :: _ => isspace c = false
  end.

(** The fare code starts with ['T']. *)
Definition conference_ticket (tkt : Ticket.t) : bool :=
  startswith (Fare.code (Ticket.fare tkt)) (u "T").

(** The tickets before the decisive one: each either is no conference
    ticket or is found assigned to someone else. *)
Definition all_passed_over (db : Store) (user : User.t)
    (tkts : list Ticket.t) : Prop :=
  forall t, In t tkts -> conference_ticket t = true ->
            is_ticket_assigned_to_someone_else db t user = Ok true.

(** The loop stops with [r] at [tkt]. *)
Definition decided_at (db : Store) (user : User.t)
    (tkts : list Ticket.t) (r : result bool) : Prop :=
  exists pre tkt post,
    tkts = pre ++ tkt :: post /\
    all_passed_over db user pre /\
    conference_ticket tkt = true /\
    is_ticket_assigned_to_someone_else db tkt user = r.

(** Ascending on the keys. *)
Definition ascending_by {A : Type} (key : A -> list N) : list A -> Prop :=
  StronglySorted (fun a b => Text.leb (key a) (key b) = true).

(** No event of the kind [p] is among those printed. *)
Definition none_printed (p : output -> bool) (out : list output) : Prop :=
  Forall (fun o => p o = false) out.

(** The unscheduled-talk warning of [talk_schedule], and the document. *)
Definition is_warning (o : output) : bool :=
  match o with
  | PrintNotScheduled _ => true
  | _ => false
  end.

Definition is_json (o : output) : bool :=
  match o with
  | PrintJson _ => true
  | _ => false
  end.

(** The assignments [talks[type_name] = ...] of the first loop of
    [handle] and [talks[grp_name] = ...] of the second. *)
Definition admin_assignments (db : Store) (conference : str)
    (status : unicode) (items : list (unicode * unicode))
  : list (unicode * list Talk.t) :=
  map (fun item =>
         (snd item,
          talks_filter db conference status
            (fun talk => Text.eqb (Talk.admin_type talk) (fst item))))
      items.

Definition type_assignments (db : Store) (conference : str)
    (status : unicode) (items : list (unicode * list unicode))
  : list (unicode * list Talk.t) :=
  map (fun item => (fst item, grp_talks db conference status (snd item)))
      items.

(** [talks] when the two loops are over. *)
Definition grouped (db : Store) (conference : str) (status : unicode)
    (iter : Iteration) : Talks :=
  group_by_type db conference status (type_groups_items iter)
    (group_by_admin_type db conference status
       (TALK_ADMIN_TYPE_items iter) []).

(** The entry of [sessions[type_name]] made for [talk]. *)
Definition entry_of (talk : Talk.t) (entry : Z * Report.t) : Prop :=
  fst entry = Talk.id talk /\
  Report.id (snd entry) = Talk.id talk /\
  Report.title (snd entry) = encode_utf8 (clean_title (Talk.title talk)).

(** The bucket of [sessions] made for an item of [talks]. *)
Definition bucket_of (item : unicode * list Talk.t)
    (bucket : unicode * OrderedDict.t Z Report.t) : Prop :=
  fst bucket = fst item /\
  Forall2 entry_of (sort_by sort_key (snd item)) (snd bucket).

(** [talk] has an entry in the bucket [bucket] of the document. *)
Definition appears (sessions : Sessions) (bucket : unicode) (talk : Talk.t)
  : Prop :=
  exists entries report,
    In (bucket, entries) sessions /\ In (Talk.id talk, report) entries.

(** [handle] can report on [talk]: [has_ticket] answers for each of its
    speakers, and each of them has a profile. *)
Definition reportable (db : Store) (talk : Talk.t) : Prop :=
  forall speaker,
    In speaker (Talk.get_all_speakers talk) ->
    (exists b, has_ticket db (Speaker.user speaker) = Ok b) /\
    User.attendeeprofile (Speaker.user speaker) <> None.

(** [talk] is in one of the buckets of [talks] when the two loops of
    [handle] are over. *)
Definition selected (db : Store) (conference : str) (status : unicode)
    (iter : Iteration) (talk : Talk.t) : Prop :=
  exists bucket session_talks,
    In (bucket, session_talks) (grouped db conference status iter) /\
    In talk session_talks.

(** The entry of [sessions[type_name]] is the report of [talk], with the
    votes when they are asked for. *)
Definition report_of (globals : Globals) (db : Store) (conference : str)
    (with_votes : bool) (talk : Talk.t) (entry : Z * Report.t) : Prop :=
  fst entry = Talk.id talk /\
  exists out report,
    talk_report globals db conference talk = (out, Ok report) /\
    snd entry =
      if with_votes
      then Report.set_user_votes report (talk_votes db talk)
      else report.

(** Every ticket has at most one row in [TicketConference]. *)
Definition one_row_per_ticket (db : Store) : Prop :=
  NoDup (map (fun row => Ticket.id (TicketConference.ticket row))
             (store_ticket_conferences db)).

(** The store with one more order. *)
Definition with_order (db : Store) (order : Order.t) : Store :=
  {| store_talks := store_talks db;
     store_tickets := store_tickets db;
     store_ticket_conferences := store_ticket_conferences db;
     store_orders := order :: store_orders db;
     store_votes := store_votes db |}.

(** Two consecutive spaces occur in [s]. *)
Fixpoint has_double_space (s : unicode) : bool :=
  match s with
  | [] => false
  | c :: r =>
      match r with
      | c' :: _ => ((c =? SPACE) && (c' =? SPACE)) || has_double_space r
      | [] => false
      end
  end.

(** Truth value of [talk.get_event()]: an event is true, [None] false. *)
Definition truthy_event (event : option Event.t) : bool :=
  match event with
  | Some _ => true
  | None => false
  end.

(** The lower-case form of an ASCII capital; other values unchanged. *)
Definition to_lower (c : N) : N := if isupper c then c + 32 else c.

(** ** Stores to run the command on *)

Module Example.

Definition mk_user (id : Z) (name : string) (profile : option AttendeeProfile.t)
  : User.t :=
  {| User.id := id; User.first_name := u name; User.last_name := u "Doe";
     User.email := u name ++ u "@example.org";
     User.attendeeprofile := profile |}.

Definition alice := mk_user 1 "alice" None.
Definition bob := mk_user 2 "bob" None.
Definition carol := mk_user 3 "carol" None.
Definition dave := mk_user 4 "dave" None.

Definition conference_fare := {| Fare.code := u "TRSP" |}.
Definition social_fare := {| Fare.code := u "VOUPE03" |}.

Definition mk_ticket (id owner : Z) (fare : Fare.t) : Ticket.t :=
  {| Ticket.id := id; Ticket.user_id := owner; Ticket.fare := fare |}.

(** alice keeps her ticket; bob gave his to carol, whose own ticket names
    her; dave's ticket has two rows in [TicketConference]. *)
Definition t_alice := mk_ticket 10 1 conference_fare.
Definition t_bob := mk_ticket 20 2 conference_fare.
Definition t_dave := mk_ticket 30 4 conference_fare.
Definition t_carol := mk_ticket 40 3 conference_fare.

Definition tc_alice :=
  {| TicketConference.ticket := t_alice; TicketConference.assigned_to := [] |}.
Definition tc_bob :=
  {| TicketConference.ticket := t_bob;
     TicketConference.assigned_to := User.email carol |}.
Definition tc_carol :=
  {| TicketConference.ticket := t_carol;
     TicketConference.assigned_to := User.email carol |}.
Definition tc_dave_1 :=
  {| TicketConference.ticket := t_dave; TicketConference.assigned_to := [] |}.
Definition tc_dave_2 :=
  {| TicketConference.ticket := t_dave;
     TicketConference.assigned_to := User.email alice ++ u ".invalid" |}.

Definition db : Store :=
  {| store_talks := [];
     store_tickets := [t_alice; t_bob; t_dave; t_carol];
     store_ticket_conferences :=
       [tc_alice; tc_bob; tc_dave_1; tc_dave_2; tc_carol];
     store_orders := [];
     store_votes := [] |}.

End Example.

Module ExampleTalks.
Import Example.

Definition mk_talk (id : Z) (title : string) (type admin_type : string)
    (speakers : list User.t) : Talk.t :=
  {| Talk.id := id;
     Talk.conference := u "ep2015";
     Talk.status := u "accepted";
     Talk.type := u type;
     Talk.admin_type := u admin_type;
     Talk.title := u title;
     Talk.sub_title := [];
     Talk.duration := 45;
     Talk.abstract_short := [];
     Talk.abstract_extra := [];
     Talk.abstracts := [];
     Talk.tags := [];
     Talk.p3_talk_sub_community := [];
     Talk.speakers := map Speaker.Build_t speakers;
     Talk.get_all_speakers := map Speaker.Build_t speakers;
     Talk.get_event := None;
     Talk.get_absolute_url := u "conference/talks/" ++ u title;
     Talk.get_admin_type_display := u admin_type;
     Talk.get_type_display := u type;
     Talk.get_level_display := u "Beginner";
     Talk.get_language_display := u "English" |}.

(** alice holds a ticket, bob does not, dave's check raises. *)
Definition two_speakers := mk_talk 1 "Packaging" "t_45" "" [alice; bob].
Definition same_speaker_twice :=
  mk_talk 2 "Typing" "t_30" "" [alice; bob; alice].
Definition failing_speaker :=
  mk_talk 3 "Testing" "t_30" "" [alice; dave; bob].

End ExampleTalks.

Module ExampleCompanies.

Definition with_company (id : Z) (name company : string) : User.t :=
  Example.mk_user id name
    (Some {| AttendeeProfile.company := u company;
             AttendeeProfile.p3_profile_twitter := u name |}).

Definition erin := with_company 5 "erin" "".
Definition frank := with_company 6 "frank" "Acme".
Definition grace := with_company 7 "grace" "Acme".
Definition heidi := with_company 8 "heidi" "Ab Inc".

(** erin has a profile with no company; alice has no profile. *)
Definition talk :=
  ExampleTalks.mk_talk 4 "Hiring" "t_30" ""
    [frank; erin; Example.alice; heidi; grace].

End ExampleCompanies.

Module ExampleRun.

Definition ann := ExampleCompanies.with_company 11 "ann" "Acme".
Definition ben := ExampleCompanies.with_company 12 "ben" "Initech".

Definition t_ann := Example.mk_ticket 110 11 Example.conference_fare.

(** Four unscheduled talks: two talks and a poster, and an opening
    session.  ann holds a ticket, ben does not. *)
Definition zebra := ExampleTalks.mk_talk 1 "Zebra" "t_45" "" [ann; ben].
Definition apple := ExampleTalks.mk_talk 2 "apple  pie" "t_30" "" [ann].
Definition opening := ExampleTalks.mk_talk 3 "Opening" "t_30" "o" [ann].
Definition poster := ExampleTalks.mk_talk 4 "Poster A" "p_180" "" [ben].

Definition db : Store :=
  {| store_talks := [zebra; apple; opening; poster];
     store_tickets := [t_ann];
     store_ticket_conferences := [];
     store_orders := [];
     store_votes := [] |}.

Definition iter : Iteration :=
  {| TALK_ADMIN_TYPE_items :=
       [(u "o", u "Opening session"); (u "k", u "Keynote")];
     type_groups_items := type_groups |}.

Definition options (verbose : bool) : Options :=
  {| verbose := verbose; talk_status := u "accepted"; votes := false |}.

Definition args : list str := [u "ep2015"].

(** The document of the run, and the keys of the talks of a bucket in
    the order in which the document lists them. *)
Definition sessions : Sessions :=
  match fst (snd (handle module_globals iter db args (options true))) with
  | [PrintJson sessions] => sessions
  | _ => []
  end.

Definition talk_ids (bucket : string) : list Z :=
  match OrderedDict.get Text.eqb sessions (u bucket) with
  | Some entries => OrderedDict.keys entries
  | None => []
  end.

(** The same conference with the single talk of two speakers. *)
Definition single : Store :=
  {| store_talks := [zebra];
     store_tickets := [t_ann];
     store_ticket_conferences := [];
     store_orders := [];
     store_votes := [] |}.

End ExampleRun.

Module ExampleEdge.

(** eve holds a ticket for the social event only, and that ticket has
    two rows; the anonymous user has no email. *)
Definition eve := Example.mk_user 9 "eve" None.
Definition anonymous : User.t :=
  {| User.id := 10; User.first_name := []; User.last_name := [];
     User.email := []; User.attendeeprofile := None |}.

Definition t_eve := Example.mk_ticket 90 9 Example.social_fare.

Definition tc_eve_1 :=
  {| TicketConference.ticket := t_eve; TicketConference.assigned_to := [] |}.
Definition tc_eve_2 :=
  {| TicketConference.ticket := t_eve;
     TicketConference.assigned_to := User.email Example.bob |}.

Definition db : Store :=
  {| store_talks := [];
     store_tickets := [t_eve];
     store_ticket_conferences := [tc_eve_1; tc_eve_2];
     store_orders := [];
     store_votes := [] |}.

(** The store of [Example] without the second row of dave's ticket. *)
Definition sound : Store :=
  {| store_talks := [];
     store_tickets := store_tickets Example.db;
     store_ticket_conferences :=
       [Example.tc_alice; Example.tc_bob; Example.tc_dave_1;
        Example.tc_carol];
     store_orders := [];
     store_votes := [] |}.

(** An order of bob that is not complete, with a ticket in it. *)
Definition pending_order : Order.t :=
  {| Order.user := 2;
     Order._complete := false;
     Order.orderitem_set :=
       [ {| OrderItem.ticket :=
              Some (Example.mk_ticket 91 2 Example.conference_fare) |} ] |}.

(** A conference whose one talk has dave among its speakers. *)
Definition failing : Store :=
  {| store_talks := [ExampleTalks.failing_speaker];
     store_tickets := store_tickets Example.db;
     store_ticket_conferences := store_ticket_conferences Example.db;
     store_orders := [];
     store_votes := [] |}.

(** The conference of [ExampleRun] with three more talks: one whose type
    is in no group, one whose admin type is not in the table, and one
    whose admin type is named like the group of the posters. *)
Definition odd_type :=
  ExampleTalks.mk_talk 5 "Unconference" "x_99" "" [ExampleRun.ann].
Definition odd_admin :=
  ExampleTalks.mk_talk 6 "Surprise" "t_30" "z" [ExampleRun.ann].
Definition shadowed :=
  ExampleTalks.mk_talk 7 "Poster session" "p_180" "p" [ExampleRun.ann].

Definition run_db : Store :=
  {| store_talks :=
       store_talks ExampleRun.db ++ [odd_type; odd_admin; shadowed];
     store_tickets := store_tickets ExampleRun.db;
     store_ticket_conferences := [];
     store_orders := [];
     store_votes := [] |}.

Definition iter : Iteration :=
  {| TALK_ADMIN_TYPE_items :=
       [(u "o", u "Opening session"); (u "p", u "poster")];
     type_groups_items := type_groups |}.

Definition sessions : Sessions :=
  match
    fst (snd (handle module_globals iter run_db ExampleRun.args
                (ExampleRun.options false)))
  with
  | [PrintJson sessions] => sessions
  | _ => []
  end.

End ExampleEdge.

(** * Properties *)

(** ** Facts about the text operations *)

Section StripFacts.

Lemma lstrip_no_leading_space s : no_leading_space (lstrip s).
Proof.
  induction s as [|c r IH]; simpl; [exact I|].
  destruct (isspace c) eqn:E; [exact IH | simpl; exact E].
Qed.

Lemma lstrip_fixpoint s : no_leading_space s -> lstrip s = s.
Proof.
  destruct s as [|c r]; simpl; [reflexivity|].
  intros ->. reflexivity.
Qed.

Lemma lstrip_idempotent s : lstrip (lstrip s) = lstrip s.
Proof. apply lstrip_fixpoint, lstrip_no_leading_space. Qed.

Lemma lstrip_suffix s : exists p, s = p ++ lstrip s.
Proof.
  induction s as [|c r [p IH]]; simpl.
  - exists []. reflexivity.
  - destruct (isspace c).
    + exists (c :: p). simpl. f_equal. exact IH.
    + exists []. reflexivity.
Qed.

Lemma rstrip_prefix s : exists q, s = rstrip s ++ q.
Proof.
  unfold rstrip. destruct (lstrip_suffix (rev s)) as [p H].
  exists (rev p). rewrite <- rev_app_distr, <- H, rev_involutive.
  reflexivity.
Qed.

Lemma rstrip_no_leading_space s :
  no_leading_space s -> no_leading_space (rstrip s).
Proof.
  destruct (rstrip_prefix s) as [q H]. intros Hs.
  destruct (rstrip s) as [|c r]; [exact I|].
  rewrite H in Hs. exact Hs.
Qed.

Lemma rstrip_idempotent s : rstrip (rstrip s) = rstrip s.
Proof.
  unfold rstrip. rewrite rev_involutive, lstrip_idempotent. reflexivity.
Qed.

Lemma strip_no_leading_space s : no_leading_space (strip s).
Proof. apply rstrip_no_leading_space, lstrip_no_leading_space. Qed.

Lemma strip_idempotent s : strip (strip s) = strip s.
Proof.
  unfold strip at 1.
  rewrite (lstrip_fixpoint _ (strip_no_leading_space s)).
  unfold strip. apply rstrip_idempotent.
Qed.

End StripFacts.

Section ReplaceFacts.

Lemma replace_double_space_nonempty s :
  s <> [] -> replace_double_space s <> [].
Proof.
  destruct s as [|c [|c' r]]; simpl; [congruence | congruence |].
  intros _. destruct ((c =? SPACE) && (c' =? SPACE)); congruence.
Qed.

Lemma replace_double_space_hd s d :
  hd d (replace_double_space s) = hd d s.
Proof.
  destruct s as [|c [|c' r]]; simpl; try reflexivity.
  destruct (c =? SPACE) eqn:E; simpl; [|reflexivity].
  apply N.eqb_eq in E. subst c.
  destruct (c' =? SPACE); reflexivity.
Qed.

(** Induction two elements at a time, as the replacement advances. *)
Lemma list_ind2 (A : Type) (P : list A -> Prop) :
  P [] -> (forall a, P [a]) ->
  (forall a b l, P l -> P (b :: l) -> P (a :: b :: l)) ->
  forall l, P l.
Proof.
  intros H0 H1 H2 l.
  enough (P l /\ forall a, P (a :: l)) by tauto.
  induction l as [|b l [IH1 IH2]]; split; auto.
Qed.

Lemma last_cons_nonempty (A : Type) (a : A) l d :
  l <> [] -> last (a :: l) d = last l d.
Proof. destruct l; [congruence | reflexivity]. Qed.

Lemma replace_double_space_last s d :
  last (replace_double_space s) d = last s d.
Proof.
  induction s as [| a | a b l IHl IHbl] using list_ind2;
    try reflexivity.
  change (replace_double_space (a :: b :: l)) with
    (if (a =? SPACE) && (b =? SPACE)
     then SPACE :: replace_double_space l
     else a :: replace_double_space (b :: l)).
  destruct ((a =? SPACE) && (b =? SPACE)) eqn:E.
  - apply andb_true_iff in E. destruct E as [_ Eb].
    apply N.eqb_eq in Eb. subst b.
    destruct l as [|c l].
    + reflexivity.
    + rewrite last_cons_nonempty
        by (apply replace_double_space_nonempty; congruence).
      rewrite IHl. reflexivity.
  - rewrite last_cons_nonempty
      by (apply replace_double_space_nonempty; congruence).
    rewrite IHbl. reflexivity.
Qed.

End ReplaceFacts.

Section SliceFacts.

Lemma firstn_pred_removelast (A : Type) (l : list A) :
  firstn (length l - 1)%nat l = removelast l.
Proof.
  induction l as [|a l IH]; [reflexivity|].
  destruct l as [|b l]; [reflexivity|].
  change (removelast (a :: b :: l)) with (a :: removelast (b :: l)).
  rewrite <- IH. simpl. rewrite Nat.sub_0_r. reflexivity.
Qed.

Lemma tl_removelast (A : Type) (l : list A) :
  tl (removelast l) = removelast (tl l).
Proof.
  destruct l as [|a [|b l]]; reflexivity.
Qed.

Lemma slice_1_m1_strip_ends s :
  slice_1_m1 s = strip_one_quote_each_end s.
Proof.
  unfold slice_1_m1, strip_one_quote_each_end.
  rewrite firstn_pred_removelast.
  change (skipn 1 (removelast s)) with (tl (removelast s)).
  apply tl_removelast.
Qed.

Lemma starts_with_quote_first_char s :
  starts_with_quote s = true ->  first_char s = QUOTE.
Proof.
  destruct s as [|c r]; simpl; [discriminate|]. apply N.eqb_eq.
Qed.

End SliceFacts.

(** ** [clean_title] *)

Lemma ends_with_quote_last_char s :
  s <> [] -> ends_with_quote s = (last_char s =? QUOTE).
Proof.
  intros Hs. unfold ends_with_quote, last_char.
  rewrite (app_removelast_last 0 Hs) at 1.
  rewrite rev_app_distr. reflexivity.
Qed.

(** The two indexings [title[0]] and [title[-1]] of [clean_title] are
    in range: the string they read is not empty. *)
Lemma clean_title_index_in_range title :
  strip title <> [] ->
  replace_double_space (strip (strip title)) <> [].
Proof.
  intros H. rewrite strip_idempotent.
  apply replace_double_space_nonempty, H.
Qed.

(** C6. [clean_title] computes what the specification says of
    [cleanTitle]: the title trimmed, with one left-to-right pass that
    replaces two consecutive spaces by one, and with one quote removed
    from each end when the trimmed title starts and ends with a double
    quote.  A quoted title with a double space loses both quotes and one
    space, and the empty title stays empty. *)
Theorem clean_title_meets_spec :
  (forall title, clean_title title = clean_title_spec title) /\
  clean_title ([QUOTE] ++ u "Hi  there" ++ [QUOTE]) = u "Hi there" /\
  clean_title [] = [].
Proof.
  split; [|split; reflexivity].
  intros title. unfold clean_title, clean_title_spec.
  pose proof (strip_idempotent title) as Hidem.
  destruct (strip title) as [|c r] eqn:Et; [reflexivity|].
  rewrite Hidem.
  assert (Hne : c :: r <> []) by congruence.
  unfold first_char, last_char.
  rewrite replace_double_space_hd, replace_double_space_last.
  rewrite (ends_with_quote_last_char _ Hne). unfold last_char. simpl hd.
  change (starts_with_quote (c :: r)) with (c =? QUOTE).
  destruct ((c =? QUOTE) && (last (c :: r) 0 =? QUOTE));
    [apply slice_1_m1_strip_ends | reflexivity].
Qed.

(** ** Comparison of texts *)

Lemma cmp_eq_iff a b : Text.cmp a b = Eq <-> a = b.
Proof. apply list_compare_refl, N.compare_eq_iff. Qed.

Lemma eqb_eq a b : Text.eqb a b = true <-> a = b.
Proof.
  unfold Text.eqb. rewrite <- cmp_eq_iff.
  destruct (Text.cmp a b); split; congruence.
Qed.

Lemma eqb_neq a b : Text.eqb a b = false <-> a <> b.
Proof.
  rewrite <- eqb_eq. destruct (Text.eqb a b); split; congruence.
Qed.

Lemma eqb_refl a : Text.eqb a a = true.
Proof. apply eqb_eq. reflexivity. Qed.

Lemma truthy_false (A : Type) (l : list A) : truthy l = false <-> l = [].
Proof. destruct l; simpl; split; congruence. Qed.

Lemma truthy_true (A : Type) (l : list A) : truthy l = true <-> l <> [].
Proof. destruct l; simpl; split; congruence. Qed.

(** ** [is_ticket_assigned_to_someone_else] *)

(** C2. With no row for the ticket the answer is [False].  With exactly
    one row the answer is [True] when the row's ticket belongs to another
    user, [False] when the row has no [assigned_to] or when [assigned_to]
    is the user's own email, and [True] otherwise. *)
Theorem is_ticket_assigned_to_someone_else_cases db ticket user :
  (ticket_conferences_of db ticket = [] ->
   is_ticket_assigned_to_someone_else db ticket user = Ok false) /\
  (forall tkt, ticket_conferences_of db ticket = [tkt] ->
     (Ticket.user_id (TicketConference.ticket tkt) <> User.id user ->
      is_ticket_assigned_to_someone_else db ticket user = Ok true) /\
     (Ticket.user_id (TicketConference.ticket tkt) = User.id user ->
      TicketConference.assigned_to tkt = [] ->
      is_ticket_assigned_to_someone_else db ticket user = Ok false) /\
     (Ticket.user_id (TicketConference.ticket tkt) = User.id user ->
      TicketConference.assigned_to tkt = User.email user ->
      is_ticket_assigned_to_someone_else db ticket user = Ok false) /\
     (Ticket.user_id (TicketConference.ticket tkt) = User.id user ->
      TicketConference.assigned_to tkt <> [] ->
      TicketConference.assigned_to tkt <> User.email user ->
      is_ticket_assigned_to_someone_else db ticket user = Ok true)).
Proof.
  unfold is_ticket_assigned_to_someone_else. split.
  - intros ->. reflexivity.
  - intros tkt ->. cbn [length Nat.ltb Nat.leb].
    repeat split.
    + intros H. apply Z.eqb_neq in H. rewrite H. reflexivity.
    + intros H E. apply Z.eqb_eq in H. rewrite H, E. reflexivity.
    + intros H E. apply Z.eqb_eq in H. rewrite H, E, eqb_refl. cbn.
      destruct (truthy (User.email user)); reflexivity.
    + intros H E1 E2. apply Z.eqb_eq in H. rewrite H.
      apply truthy_true in E1. apply eqb_neq in E2. rewrite E1, E2.
      reflexivity.
Qed.

Lemma is_ticket_assigned_to_someone_else_cases_witness :
  is_ticket_assigned_to_someone_else
    Example.db (Example.mk_ticket 99 1 Example.conference_fare) Example.alice
    = Ok false /\
  is_ticket_assigned_to_someone_else Example.db Example.t_alice Example.bob
    = Ok true /\
  is_ticket_assigned_to_someone_else Example.db Example.t_alice Example.alice
    = Ok false /\
  is_ticket_assigned_to_someone_else Example.db Example.t_carol Example.carol
    = Ok false /\
  is_ticket_assigned_to_someone_else Example.db Example.t_bob Example.bob
    = Ok true.
Proof.
  pose proof (is_ticket_assigned_to_someone_else_cases
                Example.db (Example.mk_ticket 99 1 Example.conference_fare)
                Example.alice) as [Hnone _].
  pose proof (is_ticket_assigned_to_someone_else_cases
                Example.db Example.t_alice Example.bob) as [_ Hbob].
  pose proof (is_ticket_assigned_to_someone_else_cases
                Example.db Example.t_alice Example.alice) as [_ Halice].
  pose proof (is_ticket_assigned_to_someone_else_cases
                Example.db Example.t_bob Example.bob) as [_ Hgiven].
  pose proof (is_ticket_assigned_to_someone_else_cases
                Example.db Example.t_carol Example.carol) as [_ Hcarol].
  destruct (Hbob Example.tc_alice eq_refl) as (Hother & _).
  destruct (Halice Example.tc_alice eq_refl) as (_ & Hkept & _).
  destruct (Hcarol Example.tc_carol eq_refl) as (_ & _ & Hown & _).
  destruct (Hgiven Example.tc_bob eq_refl) as (_ & _ & _ & Haway).
  split; [|split; [|split; [|split]]].
  - apply Hnone. reflexivity.
  - apply Hother. vm_compute. intros H. discriminate H.
  - apply Hkept; reflexivity.
  - apply Hown; reflexivity.
  - apply Haway; [reflexivity | |]; vm_compute; intros H; discriminate H.
Defined.

(** ** [has_ticket] *)

Lemma all_passed_over_nil db user : all_passed_over db user [].
Proof. intros t []. Qed.

Lemma all_passed_over_cons db user tkt tkts :
  all_passed_over db user (tkt :: tkts) <->
  (conference_ticket tkt = true ->
   is_ticket_assigned_to_someone_else db tkt user = Ok true) /\
  all_passed_over db user tkts.
Proof.
  unfold all_passed_over. simpl. split.
  - intros H. split; [apply H; now left | intros t Ht; apply H; now right].
  - intros [H1 H2] t [<- | Ht]; auto.
Qed.

Lemma decided_at_cons db user tkt tkts r :
  decided_at db user (tkt :: tkts) r <->
  (conference_ticket tkt = true /\
   is_ticket_assigned_to_someone_else db tkt user = r) \/
  ((conference_ticket tkt = true ->
    is_ticket_assigned_to_someone_else db tkt user = Ok true) /\
   decided_at db user tkts r).
Proof.
  unfold decided_at. split.
  - intros (pre & t & post & E & Hpre & Hc & Hr).
    destruct pre as [|p pre]; simpl in E; injection E as E1 E2; subst.
    + left. auto.
    + right. apply all_passed_over_cons in Hpre. destruct Hpre as [Hp Hpre].
      split; [exact Hp|]. exists pre, t, post. auto.
  - intros [[Hc Hr] | [Hp (pre & t & post & E & Hpre & Hc & Hr)]].
    + exists [], tkt, tkts. split; [reflexivity|].
      split; [apply all_passed_over_nil | auto].
    + exists (tkt :: pre), t, post. split; [rewrite E; reflexivity|].
      split; [apply all_passed_over_cons; auto | auto].
Qed.

Lemma decided_at_nil db user r : ~ decided_at db user [] r.
Proof. intros (pre & t & post & E & _). destruct pre; discriminate E. Qed.

Lemma has_ticket_loop_step db user tkt rest :
  has_ticket_loop db user (tkt :: rest) =
  if conference_ticket tkt then
    match is_ticket_assigned_to_someone_else db tkt user with
    | inl e => Raise e
    | inr false => Ok true
    | inr true => has_ticket_loop db user rest
    end
  else has_ticket_loop db user rest.
Proof. reflexivity. Qed.

Ltac loop_cases db user tkt :=
  rewrite has_ticket_loop_step;
  destruct (conference_ticket tkt) eqn:?;
  [destruct (is_ticket_assigned_to_someone_else db tkt user)
     as [?e|[|]] eqn:?|].

Lemma has_ticket_loop_false db user tkts :
  has_ticket_loop db user tkts = Ok false <-> all_passed_over db user tkts.
Proof.
  induction tkts as [|tkt rest IH].
  - split; [intros _; apply all_passed_over_nil | reflexivity].
  - rewrite all_passed_over_cons, <- IH. loop_cases db user tkt;
      unfold Ok, Raise in *; intuition congruence.
Qed.

Lemma has_ticket_loop_true db user tkts :
  has_ticket_loop db user tkts = Ok true <->
  decided_at db user tkts (Ok false).
Proof.
  induction tkts as [|tkt rest IH].
  - split; [discriminate | intros H; destruct (decided_at_nil _ _ _ H)].
  - rewrite decided_at_cons, <- IH. loop_cases db user tkt;
      unfold Ok, Raise in *; intuition congruence.
Qed.

Lemma has_ticket_loop_raise db user tkts e :
  has_ticket_loop db user tkts = Raise e <->
  decided_at db user tkts (Raise e).
Proof.
  induction tkts as [|tkt rest IH].
  - split; [discriminate | intros H; destruct (decided_at_nil _ _ _ H)].
  - rewrite decided_at_cons, <- IH. loop_cases db user tkt;
      unfold Ok, Raise in *; intuition congruence.
Qed.

Lemma in_order_tkts orders tkt :
  In tkt (order_tkts orders) <->
  exists order ordi,
    In order orders /\ In ordi (Order.orderitem_set order) /\
    OrderItem.ticket ordi = Some tkt.
Proof.
  unfold order_tkts. rewrite in_flat_map. split.
  - intros (order & Ho & H). apply in_flat_map in H.
    destruct H as (ordi & Hi & H). exists order, ordi.
    destruct (OrderItem.ticket ordi) as [t|]; [|destruct H].
    destruct H as [<- | []]. auto.
  - intros (order & ordi & Ho & Hi & E). exists order. split; [exact Ho|].
    apply in_flat_map. exists ordi. split; [exact Hi|].
    rewrite E. now left.
Qed.

(** The tickets the loop goes through: those the user owns, then those
    of the items, with a ticket, of the user's completed orders. *)
Lemma user_tickets_spec db user :
  user_tickets db user =
  ticket_set db user ++ order_tkts (get_orders_from db user).
Proof.
  unfold user_tickets.
  destruct (get_orders_from db user); [|reflexivity].
  simpl. rewrite app_nil_r. reflexivity.
Qed.

Lemma in_user_tickets db user tkt :
  In tkt (user_tickets db user) <->
  (In tkt (store_tickets db) /\ Ticket.user_id tkt = User.id user) \/
  (exists order ordi,
      In order (store_orders db) /\ Order._complete order = true /\
      Order.user order = User.id user /\
      In ordi (Order.orderitem_set order) /\
      OrderItem.ticket ordi = Some tkt).
Proof.
  rewrite user_tickets_spec, in_app_iff, in_order_tkts.
  unfold ticket_set, get_orders_from.
  rewrite filter_In, Z.eqb_eq.
  split; (intros [H | (order & ordi & H)]; [left; exact H | right]).
  - destruct H as (Ho & Hi & E). apply filter_In in Ho.
    destruct Ho as [Ho Hc]. apply andb_true_iff in Hc.
    destruct Hc as [Hc Hu]. apply Z.eqb_eq in Hu.
    exists order, ordi. auto.
  - destruct H as (Ho & Hc & Hu & Hi & E). exists order, ordi.
    split; [|auto]. apply filter_In. split; [exact Ho|].
    apply andb_true_iff. split; [exact Hc | apply Z.eqb_eq, Hu].
Qed.

(** C1. [has_ticket] answers [True] at once when a ticket is assigned
    to the user's email.  Otherwise it goes through the tickets the user
    owns followed by the tickets of the items, with a ticket, of the
    user's completed orders; it answers [True] at the first ticket whose
    fare code starts with ['T'] and that is not assigned to someone else,
    and [False] when every such ticket is assigned to someone else. *)
Theorem has_ticket_spec db user :
  (get_tickets_assigned_to db user <> [] -> has_ticket db user = Ok true) /\
  (forall tkt,
      In tkt (user_tickets db user) <->
      (In tkt (store_tickets db) /\ Ticket.user_id tkt = User.id user) \/
      (exists order ordi,
          In order (store_orders db) /\ Order._complete order = true /\
          Order.user order = User.id user /\
          In ordi (Order.orderitem_set order) /\
          OrderItem.ticket ordi = Some tkt)) /\
  (get_tickets_assigned_to db user = [] ->
   (has_ticket db user = Ok true <->
    exists pre tkt post,
      user_tickets db user = pre ++ tkt :: post /\
      (forall t, In t pre -> conference_ticket t = true ->
                 is_ticket_assigned_to_someone_else db t user = Ok true) /\
      conference_ticket tkt = true /\
      is_ticket_assigned_to_someone_else db tkt user = Ok false) /\
   (has_ticket db user = Ok false <->
    forall t, In t (user_tickets db user) -> conference_ticket t = true ->
              is_ticket_assigned_to_someone_else db t user = Ok true)).
Proof.
  unfold has_ticket. split; [|split].
  - intros H. apply truthy_true in H. rewrite H. reflexivity.
  - apply in_user_tickets.
  - intros ->. cbn [truthy]. split.
    + apply has_ticket_loop_true.
    + apply has_ticket_loop_false.
Qed.

Lemma has_ticket_spec_witness :
  has_ticket Example.db Example.carol = Ok true /\
  has_ticket Example.db Example.alice = Ok true /\
  has_ticket Example.db Example.bob = Ok false.
Proof.
  pose proof (has_ticket_spec Example.db Example.carol) as (Hcarol & _).
  pose proof (has_ticket_spec Example.db Example.alice) as (_ & _ & Halice).
  pose proof (has_ticket_spec Example.db Example.bob) as (_ & _ & Hbob).
  split; [|split].
  - apply Hcarol. vm_compute. intros H. discriminate H.
  - apply (Halice eq_refl).
    exists [], Example.t_alice, []. repeat split.
    intros t [].
  - apply (Hbob eq_refl).
    intros t [<- | []] _. reflexivity.
Defined.

(** C3. When more than one row of [TicketConference] has the ticket's
    key, [is_ticket_assigned_to_someone_else] raises [RuntimeError] with
    all the rows found, whatever they hold, and so gives no boolean; and
    [has_ticket] raises the same error when its loop reaches that
    ticket. *)
Theorem duplicate_ticket_rows_raise db ticket user :
  (1 < length (ticket_conferences_of db ticket))%nat ->
  is_ticket_assigned_to_someone_else db ticket user =
    Raise (RuntimeError (ticket_conferences_of db ticket)) /\
  (forall b, is_ticket_assigned_to_someone_else db ticket user <> Ok b) /\
  (forall pre post,
      get_tickets_assigned_to db user = [] ->
      user_tickets db user = pre ++ ticket :: post ->
      (forall t, In t pre -> conference_ticket t = true ->
                 is_ticket_assigned_to_someone_else db t user = Ok true) ->
      conference_ticket ticket = true ->
      has_ticket db user =
        Raise (RuntimeError (ticket_conferences_of db ticket))).
Proof.
  intros Hlen.
  assert (E : is_ticket_assigned_to_someone_else db ticket user =
              Raise (RuntimeError (ticket_conferences_of db ticket))).
  { unfold is_ticket_assigned_to_someone_else.
    destruct (ticket_conferences_of db ticket) as [|tkt more] eqn:Et.
    - simpl in Hlen. lia.
    - apply Nat.ltb_lt in Hlen. rewrite Hlen. reflexivity. }
  split; [exact E|]. split.
  - intros b. rewrite E. discriminate.
  - intros pre post Hnone Htkts Hpre Hconf. unfold has_ticket.
    rewrite Hnone. cbn [truthy]. apply has_ticket_loop_raise.
    exists pre, ticket, post. auto.
Qed.

Lemma duplicate_ticket_rows_raise_witness :
  is_ticket_assigned_to_someone_else Example.db Example.t_dave Example.dave =
    Raise (RuntimeError [Example.tc_dave_1; Example.tc_dave_2]) /\
  has_ticket Example.db Example.dave =
    Raise (RuntimeError [Example.tc_dave_1; Example.tc_dave_2]).
Proof.
  assert (H : (1 < length (ticket_conferences_of Example.db
                             Example.t_dave))%nat)
    by (vm_compute; lia).
  destruct (duplicate_ticket_rows_raise
              Example.db Example.t_dave Example.dave H)
    as (Hraise & _ & Hprop).
  split; [exact Hraise|].
  apply (Hprop [] []); try reflexivity.
  intros t [].
Defined.

(** ** [have_tickets] *)

Lemma have_tickets_loop_ok check usrs have_tkt out bs :
  have_tickets_loop check usrs have_tkt = (out, Ok bs) <->
  out = [] /\
  exists bs', bs = have_tkt ++ bs' /\
    Forall2 (fun sp b => check (Speaker.user sp) = Ok b) usrs bs'.
Proof.
  revert have_tkt. induction usrs as [|sp rest IH]; intros have_tkt; simpl.
  - unfold ret, Ok. split.
    + intros [= <- <-]. split; [reflexivity|]. exists [].
      rewrite app_nil_r. split; [reflexivity | constructor].
    + intros [-> (bs' & -> & H)]. inversion H. rewrite app_nil_r.
      reflexivity.
  - destruct (check (Speaker.user sp)) as [e|b] eqn:Ec.
    + split; [discriminate|].
      intros [_ (bs' & _ & H)]. inversion H; subst.
      unfold Ok in *. congruence.
    + rewrite IH. split; intros [-> (bs' & -> & H)]; (split; [reflexivity|]).
      * exists (b :: bs'). rewrite <- app_assoc. split; [reflexivity|].
        constructor; assumption.
      * inversion H as [|? b' ? bs'' Hb Hrest]; subst.
        assert (b' = b) by (unfold Ok in *; congruence). subst b'.
        exists bs''. rewrite <- app_assoc. split; [reflexivity | exact Hrest].
Qed.

Lemma have_tickets_loop_raise (check : User.t -> result bool)
    pre sp post have_tkt e :
  (forall sp', In sp' pre -> exists b, check (Speaker.user sp') = Ok b) ->
  check (Speaker.user sp) = Raise e ->
  have_tickets_loop check (pre ++ sp :: post) have_tkt =
    ([PrintTraceback e], Raise e).
Proof.
  revert have_tkt. induction pre as [|p pre IH]; intros have_tkt Hpre He; simpl.
  - rewrite He. reflexivity.
  - destruct (Hpre p (or_introl eq_refl)) as [b ->].
    apply IH; [|exact He]. intros sp' H. apply Hpre. now right.
Qed.

(** The first speaker whose check raises. *)
Lemma first_failing_speaker (check : User.t -> result bool) usrs :
  (exists sp, In sp usrs /\ exists e, check (Speaker.user sp) = Raise e) ->
  exists pre sp post e,
    usrs = pre ++ sp :: post /\
    (forall sp', In sp' pre -> exists b, check (Speaker.user sp') = Ok b) /\
    check (Speaker.user sp) = Raise e.
Proof.
  induction usrs as [|p rest IH]; intros (sp & Hin & e & He).
  - destruct Hin.
  - destruct (check (Speaker.user p)) as [e'|b] eqn:Ep.
    + exists [], p, rest, e'. split; [reflexivity|].
      split; [intros ? []|exact Ep].
    + destruct Hin as [-> | Hin]; [unfold Raise in He; congruence|].
      destruct IH as (pre & sp0 & post & e0 & -> & Hpre & He0).
      { exists sp. split; [exact Hin|]. exists e. exact He. }
      exists (p :: pre), sp0, post, e0. split; [reflexivity|].
      split; [|exact He0].
      intros sp' [<- | H]; [exists b; exact Ep | apply Hpre, H].
Qed.

(** C4. [have_tickets] returns a list exactly when every speaker's
    [has_ticket] returns; the list then has one boolean per speaker of
    [get_all_speakers()], in that order, the i-th being [has_ticket] of the
    i-th speaker, and nothing is printed.  A speaker listed twice is
    answered twice.  With a first speaker who holds a ticket and a second
    who does not the list is [[True, False]]. *)
Theorem have_tickets_per_speaker :
  (forall db talk out bs,
      have_tickets db talk = (out, Ok bs) <->
      out = [] /\
      Forall2 (fun sp b => has_ticket db (Speaker.user sp) = Ok b)
              (Talk.get_all_speakers talk) bs) /\
  have_tickets Example.db ExampleTalks.two_speakers = ([], Ok [true; false]) /\
  have_tickets Example.db ExampleTalks.same_speaker_twice =
    ([], Ok [true; false; true]).
Proof.
  split; [|split; reflexivity].
  intros db talk out bs. unfold have_tickets, have_tickets_with.
  rewrite have_tickets_loop_ok. split.
  - intros [-> (bs' & -> & H)]. auto.
  - intros [-> H]. split; [reflexivity|]. exists bs. auto.
Qed.

(** C9. When the check of some speaker of the talk raises,
    [have_tickets] prints the traceback of the exception of the first
    speaker whose check raises and raises that same exception: it prints
    nothing else and returns no list.  This holds for every exception the
    check can raise; [have_tickets] is [have_tickets_with] at
    [has_ticket]. *)
Theorem have_tickets_reraises (check : User.t -> result bool) talk :
  (exists sp, In sp (Talk.get_all_speakers talk) /\
              exists e, check (Speaker.user sp) = Raise e) ->
  exists pre sp post e,
    Talk.get_all_speakers talk = pre ++ sp :: post /\
    (forall sp', In sp' pre -> exists b, check (Speaker.user sp') = Ok b) /\
    check (Speaker.user sp) = Raise e /\
    have_tickets_with check talk = ([PrintTraceback e], Raise e).
Proof.
  intros H. apply first_failing_speaker in H.
  destruct H as (pre & sp & post & e & E & Hpre & He).
  exists pre, sp, post, e. repeat split; try assumption.
  unfold have_tickets_with. rewrite E.
  apply have_tickets_loop_raise; assumption.
Qed.

Lemma have_tickets_reraises_witness :
  exists e,
    have_tickets Example.db ExampleTalks.failing_speaker =
      ([PrintTraceback e], Raise e) /\
    has_ticket Example.db Example.dave = Raise e.
Proof.
  destruct (have_tickets_reraises (has_ticket Example.db)
              ExampleTalks.failing_speaker)
    as (pre & sp & post & e & E & Hpre & He & Hrun).
  - exists (Speaker.Build_t Example.dave). split.
    + simpl. right. left. reflexivity.
    + eexists. reflexivity.
  - exists e. split; [exact Hrun|].
    unfold have_tickets in Hrun. vm_compute in Hrun.
    injection Hrun as <-. reflexivity.
Defined.

(** ** The order on texts and sorting *)

Section TextOrder.

Lemma N_compare_trans x y z c :
  (x ?= y) = c -> (y ?= z) = c -> (x ?= z) = c.
Proof.
  destruct c; intros H1 H2.
  - apply N.compare_eq_iff in H1, H2. subst. apply N.compare_refl.
  - rewrite N.compare_lt_iff in *. lia.
  - rewrite N.compare_gt_iff in *. lia.
Qed.

Lemma cmp_antisym a b : Text.cmp b a = CompOpp (Text.cmp a b).
Proof.
  apply list_compare_antisym;
    [apply N.compare_eq_iff | intros; apply N.compare_antisym].
Qed.

Lemma cmp_trans a b c r :
  Text.cmp a b = r -> Text.cmp b c = r -> Text.cmp a c = r.
Proof.
  apply list_compare_trans;
    [apply N.compare_eq_iff | apply N_compare_trans
     | intros; apply N.compare_antisym].
Qed.

Lemma leb_refl a : Text.leb a a = true.
Proof.
  unfold Text.leb. rewrite (proj2 (cmp_eq_iff a a) eq_refl). reflexivity.
Qed.

Lemma leb_total a b : Text.leb a b = true \/ Text.leb b a = true.
Proof.
  unfold Text.leb. rewrite (cmp_antisym a b).
  destruct (Text.cmp a b); simpl; auto.
Qed.

Lemma leb_false_flip a b : Text.leb a b = false -> Text.leb b a = true.
Proof.
  intros H. destruct (leb_total a b); congruence.
Qed.

Lemma leb_trans a b c :
  Text.leb a b = true -> Text.leb b c = true -> Text.leb a c = true.
Proof.
  unfold Text.leb.
  destruct (Text.cmp a b) eqn:Eab; [| |discriminate]; intros _.
  - apply cmp_eq_iff in Eab. subst. auto.
  - destruct (Text.cmp b c) eqn:Ebc; [| |discriminate]; intros _.
    + apply cmp_eq_iff in Ebc. subst. rewrite Eab. reflexivity.
    + rewrite (cmp_trans _ _ _ _ Eab Ebc). reflexivity.
Qed.

Lemma leb_antisym a b :
  Text.leb a b = true -> Text.leb b a = true -> a = b.
Proof.
  unfold Text.leb. rewrite (cmp_antisym a b).
  destruct (Text.cmp a b) eqn:E; simpl; try discriminate.
  intros _ _. apply cmp_eq_iff, E.
Qed.

Lemma leb_neq_ltb a b :
  Text.leb a b = true -> a <> b -> Text.ltb a b = true.
Proof.
  unfold Text.leb, Text.ltb.
  destruct (Text.cmp a b) eqn:E; try discriminate; [|reflexivity].
  apply cmp_eq_iff in E. congruence.
Qed.

End TextOrder.

Section SortFacts.
Context {A : Type} (key : A -> list N).

Lemma insert_perm x l : Permutation (insert key x l) (x :: l).
Proof.
  induction l as [|y rest IH]; simpl; [reflexivity|].
  destruct (Text.leb (key x) (key y)); [reflexivity|].
  rewrite IH. apply perm_swap.
Qed.

Lemma sort_by_perm l : Permutation (sort_by key l) l.
Proof.
  induction l as [|x rest IH]; simpl; [reflexivity|].
  rewrite insert_perm, IH. reflexivity.
Qed.

Lemma insert_ascending x l :
  ascending_by key l -> ascending_by key (insert key x l).
Proof.
  unfold ascending_by.
  induction 1 as [|y rest Hrest IH Hy]; simpl.
  - repeat constructor.
  - destruct (Text.leb (key x) (key y)) eqn:E.
    + constructor; [constructor; assumption|].
      constructor; [exact E|].
      eapply Forall_impl; [|exact Hy].
      intros z Hz. simpl in Hz. eapply leb_trans; eassumption.
    + constructor; [exact IH|].
      rewrite (insert_perm x rest).
      constructor; [apply leb_false_flip, E | exact Hy].
Qed.

Lemma sort_by_ascending l : ascending_by key (sort_by key l).
Proof.
  induction l as [|x rest IH]; simpl.
  - constructor.
  - apply insert_ascending, IH.
Qed.

Lemma sort_by_in x l : In x (sort_by key l) <-> In x l.
Proof.
  split; apply Permutation_in;
    [apply sort_by_perm | symmetry; apply sort_by_perm].
Qed.

Lemma sort_by_nil l : sort_by key l = [] <-> l = [].
Proof.
  split; [|intros ->; reflexivity].
  intros H. pose proof (sort_by_perm l) as P. rewrite H in P.
  apply Permutation_nil, P.
Qed.

End SortFacts.

(** Two ascending lists with the same elements are equal: the order in
    which the elements reach [sorted] does not show in its result. *)
Lemma ascending_unique l l' :
  ascending_by (fun x => x) l -> ascending_by (fun x => x) l' ->
  Permutation l l' -> l = l'.
Proof.
  unfold ascending_by. intros Hl. revert l'.
  induction Hl as [|a l Hl IH Ha]; intros l' Hl' Hp.
  - apply Permutation_nil in Hp. congruence.
  - destruct Hl' as [|b l' Hl' Hb].
    + symmetry in Hp. apply Permutation_nil in Hp. discriminate.
    + assert (a = b).
      { rewrite Forall_forall in Ha, Hb.
        assert (Hin_a : In a (b :: l'))
          by (eapply Permutation_in; [exact Hp | now left]).
        assert (Hin_b : In b (a :: l))
          by (eapply Permutation_in; [symmetry; exact Hp | now left]).
        destruct Hin_a as [E | Hin_a]; [congruence|].
        destruct Hin_b as [E | Hin_b]; [congruence|].
        apply leb_antisym; auto. }
      subst b. f_equal. apply IH; [exact Hl'|].
      eapply Permutation_cons_inv, Hp.
Qed.

Lemma sorted_set_any_order l l' :
  Permutation l l' -> sorted l = sorted l'.
Proof.
  intros Hp. apply ascending_unique; try apply sort_by_ascending.
  unfold sorted. rewrite !sort_by_perm. exact Hp.
Qed.

Lemma in_set_of x l : In x (set_of l) <-> In x l.
Proof.
  induction l as [|y rest IH]; simpl; [reflexivity|].
  rewrite filter_In, IH, negb_true_iff, eqb_neq.
  split.
  - intros [H | [H _]]; auto.
  - intros [H | H]; [auto|].
    destruct (list_eq_dec N.eq_dec x y) as [E | E]; [left | right]; auto.
Qed.

Lemma set_of_NoDup l : NoDup (set_of l).
Proof.
  induction l as [|y rest IH]; simpl; constructor.
  - rewrite filter_In, negb_true_iff, eqb_neq. intros [_ H]. congruence.
  - apply NoDup_filter, IH.
Qed.

(** Ascending without repetition is strictly ascending. *)
Lemma ascending_NoDup_strict l :
  ascending_by (fun x => x) l -> NoDup l ->
  StronglySorted (fun a b => Text.ltb a b = true) l.
Proof.
  unfold ascending_by. induction 1 as [|a l Hl IH Ha]; intros Hnd.
  - constructor.
  - inversion Hnd as [|? ? Hnotin Hnd']; subst.
    constructor; [apply IH, Hnd'|].
    rewrite Forall_forall in *. intros b Hb.
    apply leb_neq_ltb; [apply Ha, Hb | congruence].
Qed.

(** ** [speaker_companies] *)

(** C8, as stated, fails: a speaker whose profile has an empty company
    name contributes the empty name, which sorts first and is joined like
    the others. *)
Lemma speaker_companies_keeps_empty_name :
  speaker_companies ExampleCompanies.talk = u ", Ab Inc, Acme" /\
  speaker_companies_spec ExampleCompanies.talk = u "Ab Inc, Acme" /\
  speaker_companies ExampleCompanies.talk <>
    speaker_companies_spec ExampleCompanies.talk.
Proof.
  split; [reflexivity|]. split; [reflexivity|].
  vm_compute. intros H. discriminate H.
Qed.

(** C8, amended. [speaker_companies] joins with [', '] a list of company
    names that is strictly ascending, hence without repetition, and that
    holds exactly the company names, empty or not, of the speakers of
    [speakers.all()] that have a profile. *)
Theorem speaker_companies_sorted_distinct talk :
  exists companies,
    speaker_companies talk = join (u ", ") companies /\
    StronglySorted (fun a b => Text.ltb a b = true) companies /\
    (forall c,
        In c companies <->
        exists speaker profile,
          In speaker (Talk.speakers talk) /\
          User.attendeeprofile (Speaker.user speaker) = Some profile /\
          AttendeeProfile.company profile = c).
Proof.
  eexists. split; [reflexivity|]. split.
  - apply ascending_NoDup_strict; [apply sort_by_ascending|].
    eapply Permutation_NoDup; [symmetry; apply sort_by_perm|].
    apply set_of_NoDup.
  - intros c. unfold sorted. rewrite sort_by_in, in_set_of, in_flat_map.
    split.
    + intros (speaker & Hin & H).
      destruct (User.attendeeprofile (Speaker.user speaker))
        as [profile|] eqn:E;
        [|destruct H].
      destruct H as [<- | []]. exists speaker, profile. auto.
    + intros (speaker & profile & Hin & E & <-). exists speaker.
      rewrite E. split; [exact Hin | now left].
Qed.

(** ** Facts about [OrderedDict] *)

Section OrderedDictFacts.
Context {K V : Type} (eqb : K -> K -> bool).
Hypothesis eqb_spec : forall a b, eqb a b = true <-> a = b.

Abbreviation dict := (OrderedDict.t K V).
Abbreviation set := (OrderedDict.set eqb).
Abbreviation keys := (@OrderedDict.keys K V).
Abbreviation set_all := (OrderedDict.set_all eqb).

Lemma set_fresh (d : dict) k v :
  ~ In k (keys d) -> set d k v = d ++ [(k, v)].
Proof.
  induction d as [|[k' v'] rest IH]; simpl; intros H; [reflexivity|].
  destruct (eqb k' k) eqn:E.
  - apply eqb_spec in E. tauto.
  - rewrite IH by tauto. reflexivity.
Qed.

Lemma in_keys_set (d : dict) k v k' :
  In k' (keys (set d k v)) <-> k' = k \/ In k' (keys d).
Proof.
  induction d as [|[k0 v0] rest IH]; simpl.
  - intuition.
  - destruct (eqb k0 k) eqn:E; simpl.
    + apply eqb_spec in E. subst. intuition.
    + rewrite IH. intuition.
Qed.

Lemma NoDup_keys_set (d : dict) k v :
  NoDup (keys d) -> NoDup (keys (set d k v)).
Proof.
  induction d as [|[k0 v0] rest IH]; simpl; intros H.
  - constructor; [intros [] | constructor].
  - inversion H as [|? ? Hnotin Hrest]; subst.
    destruct (eqb k0 k) eqn:E; simpl.
    + exact H.
    + constructor; [|apply IH, Hrest].
      rewrite in_keys_set. intros [-> | Hin]; [|tauto].
      rewrite (proj2 (eqb_spec k k) eq_refl) in E. discriminate.
Qed.

(** What a dictionary with distinct keys holds after [d[k] = v]. *)
Lemma in_set (d : dict) k v k' v' :
  NoDup (keys d) ->
  (In (k', v') (set d k v) <->
   (k' = k /\ v' = v) \/ (k' <> k /\ In (k', v') d)).
Proof.
  induction d as [|[k0 v0] rest IH]; simpl; intros H.
  - split.
    + intros [[= <- <-] | []]. auto.
    + intros [[-> ->] | [_ []]]. auto.
  - inversion H as [|? ? Hnotin Hrest]; subst.
    destruct (eqb k0 k) eqn:E; simpl.
    + apply eqb_spec in E. subst k0. split.
      * intros [[= <- <-] | Hin]; [auto|].
        right. split; [|auto]. intros ->.
        apply Hnotin. apply (in_map fst) in Hin. exact Hin.
      * intros [[-> ->] | [Hne [[= <- <-] | Hin]]]; [auto | congruence | auto].
    + rewrite (IH Hrest). split.
      * intros [[= <- <-] | [[-> ->] | [Hne Hin]]]; [|auto|auto].
        right. split; [|auto]. intros ->.
        rewrite (proj2 (eqb_spec k k) eq_refl) in E. discriminate.
      * intros [[-> ->] | [Hne [[= <- <-] | Hin]]]; auto.
Qed.

Lemma NoDup_keys_set_all kvs (d : dict) :
  NoDup (keys d) -> NoDup (keys (set_all d kvs)).
Proof.
  revert d. induction kvs as [|[k v] rest IH]; intros d H; simpl.
  - exact H.
  - apply IH, NoDup_keys_set, H.
Qed.

Lemma in_set_all_kept kvs (d : dict) k v :
  NoDup (keys d) -> In (k, v) d -> ~ In k (map fst kvs) ->
  In (k, v) (set_all d kvs).
Proof.
  revert d. induction kvs as [|[k1 v1] rest IH]; intros d Hd Hin Hk; simpl.
  - exact Hin.
  - simpl in Hk. apply IH; [apply NoDup_keys_set, Hd | | tauto].
    apply in_set; [exact Hd|]. right. split; [|exact Hin].
    intros ->. tauto.
Qed.

(** Every item of the result was assigned, or was there before and has
    not been assigned. *)
Lemma in_set_all kvs (d : dict) k v :
  NoDup (keys d) -> In (k, v) (set_all d kvs) ->
  In (k, v) kvs \/ (In (k, v) d /\ ~ In k (map fst kvs)).
Proof.
  revert d. induction kvs as [|[k1 v1] rest IH]; intros d Hd Hin; simpl.
  - right. auto.
  - simpl in Hin. apply IH in Hin; [|apply NoDup_keys_set, Hd].
    destruct Hin as [Hin | [Hin Hk]]; [auto|].
    apply in_set in Hin; [|exact Hd]. simpl in Hin.
    destruct Hin as [[-> ->] | [Hne Hin]]; [auto|].
    right. split; [exact Hin|]. intros [E | E]; [congruence | tauto].
Qed.

(** With distinct keys every assignment shows in the result. *)
Lemma in_set_all_assigned kvs (d : dict) k v :
  NoDup (keys d) -> NoDup (map fst kvs) -> In (k, v) kvs ->
  In (k, v) (set_all d kvs).
Proof.
  revert d. induction kvs as [|[k1 v1] rest IH]; intros d Hd Hnd Hin.
  - destruct Hin.
  - simpl in Hnd. inversion Hnd as [|? ? Hnotin Hrest]; subst. simpl.
    destruct Hin as [[= -> ->] | Hin].
    + apply in_set_all_kept; [apply NoDup_keys_set, Hd | | exact Hnotin].
      apply in_set; [exact Hd | auto].
    + apply IH; [apply NoDup_keys_set, Hd | exact Hrest | exact Hin].
Qed.

End OrderedDictFacts.

(** ** Facts about printing computations *)

Lemma bind_ok (A B : Type) (m : M A) (k : A -> M B) out b :
  bind m k = (out, Ok b) <->
  exists out1 a out2,
    m = (out1, Ok a) /\ k a = (out2, Ok b) /\ out = out1 ++ out2.
Proof.
  unfold bind, Ok. destruct m as [out1 [e|a]].
  - split; [discriminate|]. intros (? & ? & ? & [= ] & _).
  - destruct (k a) as [out2 r] eqn:Ek. cbn. split.
    + intros [= <- ->]. exists out1, a, out2. auto.
    + intros (o1 & a' & o2 & E1 & E2 & ->).
      injection E1 as <- <-. rewrite Ek in E2. injection E2 as <- <-.
      reflexivity.
Qed.

Lemma bind_output (A B : Type) (m : M A) (k : A -> M B) :
  fst (bind m k) =
  fst m ++ match snd m with
           | inr a => fst (k a)
           | inl _ => []
           end.
Proof.
  unfold bind. destruct m as [out1 [e|a]]; simpl.
  - rewrite app_nil_r. reflexivity.
  - destruct (k a). reflexivity.
Qed.

Lemma none_printed_bind p (A B : Type) (m : M A) (k : A -> M B) :
  none_printed p (fst m) -> (forall a, none_printed p (fst (k a))) ->
  none_printed p (fst (bind m k)).
Proof.
  intros Hm Hk. rewrite bind_output. apply Forall_app. split; [exact Hm|].
  destruct (snd m); [constructor | apply Hk].
Qed.

Section Silent.
Variables (p : output -> bool) (globals : Globals) (db : Store)
          (conference : str) (with_votes : bool).
Hypothesis p_traceback : forall e, p (PrintTraceback e) = false.
Hypothesis p_not_scheduled :
  VERBOSE globals = false \/ forall talk, p (PrintNotScheduled talk) = false.

Lemma none_printed_have_tickets_loop check usrs have_tkt :
  none_printed p (fst (have_tickets_loop check usrs have_tkt)).
Proof.
  revert have_tkt. induction usrs as [|sp rest IH]; intros have_tkt; simpl.
  - constructor.
  - destruct (check (Speaker.user sp)); [|apply IH].
    constructor; [apply p_traceback | constructor].
Qed.

Lemma none_printed_talk_schedule talk :
  none_printed p (fst (talk_schedule globals talk)).
Proof.
  unfold talk_schedule.
  destruct (Talk.get_event talk); [constructor|].
  destruct (VERBOSE globals) eqn:E; [|constructor].
  destruct p_not_scheduled as [H | H]; [congruence|].
  constructor; [apply H | constructor].
Qed.

Lemma none_printed_talk_report talk :
  none_printed p (fst (talk_report globals db conference talk)).
Proof.
  unfold talk_report.
  apply none_printed_bind;
    [apply none_printed_talk_schedule | intros timerange].
  apply none_printed_bind;
    [apply none_printed_have_tickets_loop | intros have_tkt].
  apply none_printed_bind; [constructor | intros twitters; constructor].
Qed.

Lemma none_printed_session_entries session_talks entries :
  none_printed p
    (fst (session_entries globals db conference with_votes
            session_talks entries)).
Proof.
  revert entries. induction session_talks as [|talk rest IH]; intros entries.
  - constructor.
  - simpl. apply none_printed_bind; [apply none_printed_talk_report|].
    intros report. apply IH.
Qed.

Lemma none_printed_build_sessions items sessions :
  none_printed p
    (fst (build_sessions globals db conference with_votes items sessions)).
Proof.
  revert sessions. induction items as [|[type_name session_talks] rest IH];
    intros sessions.
  - constructor.
  - simpl. destruct (negb (truthy session_talks)); [apply IH|].
    apply none_printed_bind; [apply none_printed_session_entries|].
    intros entries. apply IH.
Qed.

End Silent.

(** ** The reports of a run that prints *)

Section Sessions.
Variables (globals : Globals) (db : Store) (conference : str)
          (with_votes : bool).

Lemma talk_report_ok talk out report :
  talk_report globals db conference talk = (out, Ok report) ->
  Report.id report = Talk.id talk /\
  Report.title report = encode_utf8 (clean_title (Talk.title talk)).
Proof.
  unfold talk_report. intros H.
  apply bind_ok in H. destruct H as (o1 & timerange & o2 & _ & H & _).
  apply bind_ok in H. destruct H as (o3 & have_tkt & o4 & _ & H & _).
  apply bind_ok in H. destruct H as (o5 & twitters & o6 & _ & H & _).
  unfold ret, Ok in H. injection H as _ <-. split; reflexivity.
Qed.

Lemma session_entries_ok session_talks :
  forall entries out result,
    NoDup (map Talk.id session_talks) ->
    (forall talk, In talk session_talks ->
                  ~ In (Talk.id talk) (OrderedDict.keys entries)) ->
    session_entries globals db conference with_votes session_talks entries
      = (out, Ok result) ->
    exists new, result = entries ++ new /\ Forall2 entry_of session_talks new.
Proof.
  induction session_talks as [|talk rest IH];
    intros entries out result Hnd Hfresh H.
  - simpl in H. unfold ret, Ok in H. injection H as _ <-.
    exists []. rewrite app_nil_r. split; [reflexivity | constructor].
  - simpl in H. apply bind_ok in H.
    destruct H as (o1 & report & o2 & Hreport & H & _).
    apply talk_report_ok in Hreport. destruct Hreport as [Hid Htitle].
    simpl in Hnd. inversion Hnd as [|? ? Hnotin Hrest]; subst.
    rewrite (set_fresh Z.eqb Z.eqb_eq) in H
      by (apply Hfresh; now left).
    apply IH in H; [|exact Hrest|].
    + destruct H as (new & -> & Hnew).
      eexists. rewrite <- app_assoc. split; [reflexivity|].
      constructor; [|exact Hnew].
      unfold entry_of. simpl.
      destruct with_votes; simpl; auto.
    + intros t Ht. unfold OrderedDict.keys. rewrite map_app, in_app_iff.
      simpl. intros [Hin | [E | []]].
      * apply (Hfresh t); [now right | exact Hin].
      * apply Hnotin. rewrite E. apply in_map, Ht.
Qed.

Lemma build_sessions_ok items :
  forall sessions out result,
    NoDup (OrderedDict.keys items) ->
    (forall item, In item items -> NoDup (map Talk.id (snd item))) ->
    (forall k, In k (OrderedDict.keys items) ->
               ~ In k (OrderedDict.keys sessions)) ->
    build_sessions globals db conference with_votes items sessions
      = (out, Ok result) ->
    exists new,
      result = sessions ++ new /\
      Forall2 bucket_of (filter (fun item => truthy (snd item)) items) new.
Proof.
  induction items as [|[type_name session_talks] rest IH];
    intros sessions out result Hnd Hpk Hfresh H.
  - simpl in H. unfold ret, Ok in H. injection H as _ <-.
    exists []. rewrite app_nil_r. split; [reflexivity | constructor].
  - simpl in Hnd. inversion Hnd as [|? ? Hnotin Hrest]; subst.
    simpl in H. simpl filter.
    destruct (truthy session_talks) eqn:Et; simpl in H.
    + apply bind_ok in H.
      destruct H as (o1 & entries & o2 & Hentries & H & _).
      apply session_entries_ok in Hentries.
      * destruct Hentries as (new_entries & -> & Hnew). simpl in H.
        rewrite (set_fresh Text.eqb eqb_eq) in H
          by (apply Hfresh; now left).
        apply IH in H; [|exact Hrest| |].
        -- destruct H as (new & -> & Hbuckets).
           eexists. rewrite <- app_assoc. split; [reflexivity|].
           constructor; [|exact Hbuckets]. split; [reflexivity | exact Hnew].
        -- intros item Hitem. apply Hpk. now right.
        -- intros k Hk. unfold OrderedDict.keys.
           rewrite map_app, in_app_iff. simpl. intros [Hin | [E | []]].
           ++ apply (Hfresh k); [now right | exact Hin].
           ++ apply Hnotin. rewrite E. exact Hk.
      * eapply Permutation_NoDup;
          [apply Permutation_map; symmetry; apply sort_by_perm|].
        apply (Hpk (type_name, session_talks)). now left.
      * intros talk _ [].
    + apply IH in H; [exact H | exact Hrest | |].
      * intros item Hitem. apply Hpk. now right.
      * intros k Hk. apply Hfresh. now right.
Qed.

End Sessions.

(** ** The grouping *)

Lemma NoDup_app_disjoint (A : Type) (l1 l2 : list A) a :
  NoDup (l1 ++ l2) -> In a l1 -> In a l2 -> False.
Proof.
  induction l1 as [|b l1 IH]; simpl; intros H H1 H2; [exact H1|].
  inversion H as [|? ? Hnotin Hrest]; subst.
  destruct H1 as [-> | H1]; [|exact (IH Hrest H1 H2)].
  apply Hnotin, in_or_app. now right.
Qed.

(** Each type code belongs to one group. *)
Lemma group_of_type_unique (A B : Type) (groups : list (A * list B))
    g1 ts1 g2 ts2 t :
  NoDup (flat_map snd groups) ->
  In (g1, ts1) groups -> In (g2, ts2) groups ->
  In t ts1 -> In t ts2 -> g1 = g2.
Proof.
  induction groups as [|[g ts] rest IH]; simpl; intros Hnd H1 H2 Ht1 Ht2.
  - destruct H1.
  - assert (Hin : forall g' ts', In (g', ts') rest -> In t ts' ->
                                 In t (flat_map snd rest)).
    { intros g' ts' Hg Ht. apply in_flat_map. exists (g', ts'). auto. }
    destruct H1 as [[= -> ->] | H1], H2 as [[= -> ->] | H2].
    + reflexivity.
    + destruct (NoDup_app_disjoint _ _ _ _ Hnd Ht1 (Hin _ _ H2 Ht2)).
    + destruct (NoDup_app_disjoint _ _ _ _ Hnd Ht2 (Hin _ _ H1 Ht1)).
    + apply IH; auto. eapply NoDup_app_remove_l, Hnd.
Qed.

Ltac nodup_by_computation :=
  vm_compute;
  repeat (constructor;
          [ let H := fresh in
            intros H; repeat (destruct H as [H|H]; [discriminate H|]);
            exact H
          | ]);
  constructor.

Lemma type_groups_names_NoDup : NoDup (map fst type_groups).
Proof. nodup_by_computation. Qed.

Lemma type_groups_types_NoDup : NoDup (flat_map snd type_groups).
Proof. nodup_by_computation. Qed.

Section Grouping.
Variables (db : Store) (conference : str) (status : unicode).

Lemma group_by_admin_type_set_all items talks :
  group_by_admin_type db conference status items talks =
  OrderedDict.set_all Text.eqb talks
    (admin_assignments db conference status items).
Proof.
  revert talks. induction items as [|[adm_type type_name] rest IH];
    intros talks; [reflexivity|].
  apply IH.
Qed.

Lemma group_by_type_set_all items talks :
  group_by_type db conference status items talks =
  OrderedDict.set_all Text.eqb talks
    (type_assignments db conference status items).
Proof.
  revert talks. induction items as [|[grp_name grp_types] rest IH];
    intros talks; [reflexivity|].
  apply IH.
Qed.

Lemma grouped_keys_NoDup iter :
  NoDup (OrderedDict.keys (grouped db conference status iter)).
Proof.
  unfold grouped.
  rewrite group_by_type_set_all, group_by_admin_type_set_all.
  apply (NoDup_keys_set_all Text.eqb eqb_eq).
  apply (NoDup_keys_set_all Text.eqb eqb_eq). constructor.
Qed.

(** A bucket of [talks] is the bucket of a group, or that of an admin
    type whose name is not the name of a group. *)
Lemma in_grouped iter bucket session_talks :
  In (bucket, session_talks) (grouped db conference status iter) ->
  (exists grp_types,
      In (bucket, grp_types) (type_groups_items iter) /\
      session_talks = grp_talks db conference status grp_types) \/
  (exists adm_type,
      In (adm_type, bucket) (TALK_ADMIN_TYPE_items iter) /\
      ~ In bucket (map fst (type_groups_items iter)) /\
      session_talks =
        talks_filter db conference status
          (fun talk => Text.eqb (Talk.admin_type talk) adm_type)).
Proof.
  unfold grouped.
  rewrite group_by_type_set_all, group_by_admin_type_set_all.
  intros H. apply (in_set_all Text.eqb eqb_eq) in H;
    [|apply (NoDup_keys_set_all Text.eqb eqb_eq); constructor].
  destruct H as [H | [H Hk]].
  - left. unfold type_assignments in H. apply in_map_iff in H.
    destruct H as ([g ts] & [= <- <-] & Hin). exists ts. auto.
  - right. apply (in_set_all Text.eqb eqb_eq) in H; [|constructor].
    destruct H as [H | [[] _]].
    unfold admin_assignments in H. apply in_map_iff in H.
    destruct H as ([code name] & [= <- <-] & Hin). exists code.
    split; [exact Hin|]. split; [|reflexivity].
    unfold type_assignments in Hk. rewrite map_map in Hk. exact Hk.
Qed.

(** The bucket of every group is in [talks]. *)
Lemma group_in_grouped iter grp_name grp_types :
  NoDup (map fst (type_groups_items iter)) ->
  In (grp_name, grp_types) (type_groups_items iter) ->
  In (grp_name, grp_talks db conference status grp_types)
     (grouped db conference status iter).
Proof.
  intros Hnd Hin. unfold grouped.
  rewrite group_by_type_set_all, group_by_admin_type_set_all.
  apply (in_set_all_assigned Text.eqb eqb_eq).
  - apply (NoDup_keys_set_all Text.eqb eqb_eq). constructor.
  - unfold type_assignments. rewrite map_map. exact Hnd.
  - unfold type_assignments. apply in_map_iff.
    exists (grp_name, grp_types). auto.
Qed.

Lemma in_talks_filter more talk :
  In talk (talks_filter db conference status more) <->
  In talk (store_talks db) /\ Talk.conference talk = conference /\
  Talk.status talk = status /\ more talk = true.
Proof.
  unfold talks_filter. rewrite filter_In, !andb_true_iff, !eqb_eq. tauto.
Qed.

Lemma in_grp_talks grp_types talk :
  In talk (grp_talks db conference status grp_types) <->
  In talk (store_talks db) /\ Talk.conference talk = conference /\
  Talk.status talk = status /\ In (Talk.type talk) grp_types /\
  Talk.admin_type talk = [].
Proof.
  unfold grp_talks. rewrite in_flat_map. split.
  - intros (talk_type & Ht & H). apply in_talks_filter in H.
    rewrite andb_true_iff, !eqb_eq in H.
    destruct H as (? & ? & ? & -> & ?). auto.
  - intros (? & ? & ? & Ht & ?). exists (Talk.type talk).
    split; [exact Ht|]. apply in_talks_filter.
    rewrite andb_true_iff, !eqb_eq. auto.
Qed.

(** Keys are primary: two rows with the same key are the same row. *)
Lemma same_id_same_talk (l : list Talk.t) a b :
  NoDup (map Talk.id l) -> In a l -> In b l -> Talk.id a = Talk.id b -> a = b.
Proof.
  induction l as [|t rest IH]; simpl; intros Hnd Ha Hb E; [destruct Ha|].
  inversion Hnd as [|? ? Hnotin Hrest]; subst.
  destruct Ha as [-> | Ha], Hb as [-> | Hb]; auto.
  - destruct Hnotin. rewrite E. apply in_map, Hb.
  - destruct Hnotin. rewrite <- E. apply in_map, Ha.
Qed.

Lemma NoDup_ids_filter (p : Talk.t -> bool) l :
  NoDup (map Talk.id l) -> NoDup (map Talk.id (filter p l)).
Proof.
  induction l as [|t rest IH]; simpl; intros Hnd; [constructor|].
  inversion Hnd as [|? ? Hnotin Hrest]; subst.
  destruct (p t); simpl; [|apply IH, Hrest].
  constructor; [|apply IH, Hrest].
  intros H. apply Hnotin. apply in_map_iff in H.
  destruct H as (t' & E & Hin). apply filter_In in Hin.
  apply in_map_iff. exists t'. tauto.
Qed.

Lemma NoDup_ids_grp_talks grp_types :
  NoDup grp_types -> NoDup (map Talk.id (store_talks db)) ->
  NoDup (map Talk.id (grp_talks db conference status grp_types)).
Proof.
  intros Hts Hpk. induction Hts as [|talk_type rest Hnotin Hrest IH].
  - constructor.
  - change (grp_talks db conference status (talk_type :: rest)) with
      (talks_filter db conference status
         (fun talk => Text.eqb (Talk.type talk) talk_type &&
                      Text.eqb (Talk.admin_type talk) [])
       ++ grp_talks db conference status rest).
    rewrite map_app. apply NoDup_app.
    + apply NoDup_ids_filter, Hpk.
    + exact IH.
    + intros id H1 H2. apply in_map_iff in H1, H2.
      destruct H1 as (a & Ea & Ha), H2 as (b & Eb & Hb).
      apply in_talks_filter in Ha. apply in_grp_talks in Hb.
      rewrite andb_true_iff, !eqb_eq in Ha.
      assert (a = b).
      { apply (same_id_same_talk (store_talks db)); try tauto. congruence. }
      subst b. apply Hnotin. destruct Ha as (_ & _ & _ & <- & _). tauto.
Qed.

End Grouping.

(** ** A run of [handle] that prints the document *)

Lemma Forall2_In_l (A B : Type) (R : A -> B -> Prop) l l' x :
  Forall2 R l l' -> In x l -> exists y, In y l' /\ R x y.
Proof.
  induction 1 as [|a b l l' Hab _ IH]; intros Hin; [destruct Hin|].
  destruct Hin as [-> | Hin].
  - exists b. split; [now left | exact Hab].
  - destruct (IH Hin) as (y & Hy & Hxy). exists y.
    split; [now right | exact Hxy].
Qed.

Lemma Forall2_In_r (A B : Type) (R : A -> B -> Prop) l l' y :
  Forall2 R l l' -> In y l' -> exists x, In x l /\ R x y.
Proof.
  induction 1 as [|a b l l' Hab _ IH]; intros Hin; [destruct Hin|].
  destruct Hin as [-> | Hin].
  - exists a. split; [now left | exact Hab].
  - destruct (IH Hin) as (x & Hx & Hxy). exists x.
    split; [now right | exact Hxy].
Qed.

Lemma ascending_Forall2 (A B : Type) (key : A -> list N) (key' : B -> list N)
    (R : A -> B -> Prop) l l' :
  (forall x y, R x y -> key x = key' y) ->
  Forall2 R l l' -> ascending_by key l -> ascending_by key' l'.
Proof.
  intros Hkey. unfold ascending_by.
  induction 1 as [|a b l l' Hab Hll' IH]; intros Hs; [constructor|].
  inversion Hs as [|? ? Hl Ha]; subst.
  constructor; [apply IH, Hl|].
  rewrite Forall_forall in *. intros y Hy.
  destruct (Forall2_In_r _ _ _ _ _ _ Hll' Hy) as (x & Hx & Hxy).
  rewrite <- (Hkey _ _ Hab), <- (Hkey _ _ Hxy). apply Ha, Hx.
Qed.

(** [handle] prints the document exactly when it has a conference and
    the loop over the buckets returns; the document is then what the loop
    built from [talks]. *)
Lemma handle_prints_json globals iter db args options sessions :
  In (PrintJson sessions) (fst (snd (handle globals iter db args options))) <->
  exists conference rest out,
    args = conference :: rest /\
    build_sessions globals db conference (votes options)
      (grouped db conference (talk_status options) iter) []
    = (out, Ok sessions).
Proof.
  unfold handle, Ok. destruct args as [|conference rest].
  - simpl. split; [intros [] | intros (? & ? & ? & [=] & _)].
  - assert (E : frame_globals
                  (if verbose options
                   then assign_VERBOSE
                          {| frame_globals := globals; local_VERBOSE := None |}
                          true
                   else {| frame_globals := globals; local_VERBOSE := None |})
                = globals) by (destruct (verbose options); reflexivity).
    cbv zeta. rewrite E. cbn [snd].
    fold (grouped db conference (talk_status options) iter).
    rewrite bind_output.
    pose proof (none_printed_build_sessions is_json globals db conference
                  (votes options) (fun _ => eq_refl)
                  (or_intror (fun _ => eq_refl))
                  (grouped db conference (talk_status options) iter) [])
      as Hquiet.
    destruct (build_sessions globals db conference (votes options)
                (grouped db conference (talk_status options) iter) [])
      as [out [e|built]] eqn:Eb; simpl in *.
    + rewrite app_nil_r. split.
      * intros Hin. unfold none_printed in Hquiet.
        rewrite Forall_forall in Hquiet. apply Hquiet in Hin. discriminate.
      * intros (c & r & o & Eargs & H). injection Eargs as <- <-.
        rewrite Eb in H. discriminate H.
    + rewrite in_app_iff. split.
      * intros [Hin | [[= <-] | []]].
        -- unfold none_printed in Hquiet.
           rewrite Forall_forall in Hquiet. apply Hquiet in Hin. discriminate.
        -- exists conference, rest, out. auto.
      * intros (c & r & o & Eargs & H). injection Eargs as <- <-.
        rewrite Eb in H. injection H as _ <-. right. now left.
Qed.

(** The run over the single talk prints one document with the one key
    [talk], whose one entry has [have_tickets] equal to [[True, False]]. *)
Example end_to_end_single_talk :
  exists report,
    snd (handle module_globals ExampleRun.iter ExampleRun.single
           ExampleRun.args (ExampleRun.options false))
    = ([PrintJson [(u "talk", [(1%Z, report)])]], Ok tt) /\
    Report.have_tickets report = [true; false].
Proof. eexists. split; reflexivity. Qed.

(** ** The verbose flag *)

(** With [VERBOSE] true at module level the warning would be printed. *)
Example talk_schedule_warns_when_global_is_set :
  talk_schedule {| VERBOSE := true |} ExampleRun.zebra =
    ([PrintNotScheduled ExampleRun.zebra], Ok []).
Proof. reflexivity. Qed.

(** C10. Two calls of [handle] whose options differ only in [verbose]
    print and return the same: the assignment [VERBOSE = True] binds a
    local of [handle], the module global stays [False], and so
    [talk_schedule] never prints its warning, also with [--verbose]. *)
Theorem verbose_flag_is_ignored :
  (forall globals iter db args options options',
      talk_status options = talk_status options' ->
      votes options = votes options' ->
      handle globals iter db args options =
      handle globals iter db args options') /\
  (forall iter db args options,
      fst (handle module_globals iter db args options) = module_globals /\
      forall talk,
        ~ In (PrintNotScheduled talk)
             (fst (snd (handle module_globals iter db args options)))).
Proof.
  split.
  - intros globals iter db args options options' Hstatus Hvotes.
    unfold handle. destruct args as [|conference rest]; [reflexivity|].
    cbv zeta. rewrite Hstatus, Hvotes.
    destruct (verbose options), (verbose options'); reflexivity.
  - intros iter db args options. split.
    + unfold handle. destruct args; [reflexivity|].
      destruct (verbose options); reflexivity.
    + intros talk Hin.
      assert (H : none_printed is_warning
                    (fst (snd (handle module_globals iter db args options)))).
      { unfold handle. destruct args as [|conference rest]; [constructor|].
        cbv zeta. cbn [snd]. apply none_printed_bind.
        - apply none_printed_build_sessions; [reflexivity|].
          left. destruct (verbose options); reflexivity.
        - intros sessions. repeat constructor. }
      unfold none_printed in H. rewrite Forall_forall in H.
      apply H in Hin. discriminate Hin.
Qed.

Lemma verbose_flag_is_ignored_witness :
  handle module_globals ExampleRun.iter ExampleRun.db ExampleRun.args
    (ExampleRun.options true)
  = handle module_globals ExampleRun.iter ExampleRun.db ExampleRun.args
      (ExampleRun.options false) /\
  fst (snd (handle module_globals ExampleRun.iter ExampleRun.db
              ExampleRun.args (ExampleRun.options true)))
  = [PrintJson ExampleRun.sessions].
Proof.
  split.
  - apply (proj1 verbose_flag_is_ignored); reflexivity.
  - reflexivity.
Defined.

(** ** The buckets of the document *)

Lemma NoDup_group_types (A B : Type) (groups : list (A * list B)) g ts :
  NoDup (flat_map snd groups) -> In (g, ts) groups -> NoDup ts.
Proof.
  induction groups as [|[g' ts'] rest IH]; simpl; intros Hnd Hin;
    [destruct Hin|].
  destruct Hin as [[= -> ->] | Hin].
  - eapply NoDup_app_remove_r, Hnd.
  - apply IH; [|exact Hin]. eapply NoDup_app_remove_l, Hnd.
Qed.

Section Document.
Variables (globals : Globals) (iter : Iteration) (db : Store)
          (args : list str) (options : Options) (sessions : Sessions).

(** Keys of talks are primary keys, and [type_groups.items()] yields the
    items of the literal in some order. *)
Hypothesis primary_key : NoDup (map Talk.id (store_talks db)).
Hypothesis groups_iterated :
  Permutation (type_groups_items iter) type_groups.
Hypothesis printed :
  In (PrintJson sessions) (fst (snd (handle globals iter db args options))).

Lemma grouped_ids_NoDup conference item :
  In item (grouped db conference (talk_status options) iter) ->
  NoDup (map Talk.id (snd item)).
Proof.
  destruct item as [bucket session_talks]. intros H.
  apply in_grouped in H.
  destruct H as [(grp_types & Hin & ->) | (adm_type & _ & _ & ->)]; simpl.
  - apply NoDup_ids_grp_talks; [|exact primary_key].
    apply (NoDup_group_types _ _ type_groups bucket);
      [apply type_groups_types_NoDup|].
    eapply Permutation_in; [exact groups_iterated | exact Hin].
  - apply NoDup_ids_filter, primary_key.
Qed.

Lemma grouped_subset conference bucket session_talks talk :
  In (bucket, session_talks)
     (grouped db conference (talk_status options) iter) ->
  In talk session_talks -> In talk (store_talks db).
Proof.
  intros H Hin. apply in_grouped in H.
  destruct H as [(grp_types & _ & ->) | (adm_type & _ & _ & ->)].
  - apply in_grp_talks in Hin. tauto.
  - apply in_talks_filter in Hin. tauto.
Qed.

(** The document has one bucket for each bucket of [talks] that is not
    empty, in the same order, with one entry for each of its talks, in
    sorted order. *)
Lemma printed_buckets :
  exists conference rest,
    args = conference :: rest /\
    Forall2 bucket_of
      (filter (fun item => truthy (snd item))
              (grouped db conference (talk_status options) iter))
      sessions.
Proof.
  destruct (proj1 (handle_prints_json _ _ _ _ _ _) printed)
    as (conference & rest & out & -> & H).
  exists conference, rest. split; [reflexivity|].
  apply build_sessions_ok in H.
  - destruct H as (new & -> & Hnew). exact Hnew.
  - apply grouped_keys_NoDup.
  - intros item. apply grouped_ids_NoDup.
  - intros k _ [].
Qed.

(** A talk of the store has an entry in a bucket of the document exactly
    when it is in that bucket of [talks]. *)
Lemma appears_iff bucket talk :
  In talk (store_talks db) ->
  (appears sessions bucket talk <->
   exists conference session_talks,
     hd_error args = Some conference /\
     In (bucket, session_talks)
        (grouped db conference (talk_status options) iter) /\
     In talk session_talks).
Proof.
  intros Hstore.
  destruct printed_buckets as (conference & rest & -> & Hbuckets). split.
  - intros (entries & report & Hbucket & Hentry).
    destruct (Forall2_In_r _ _ _ _ _ _ Hbuckets Hbucket)
      as ([b session_talks] & Hitem & Hname & Hentries).
    simpl in Hname, Hentries. subst b. apply filter_In in Hitem.
    destruct Hitem as [Hitem _].
    destruct (Forall2_In_r _ _ _ _ _ _ Hentries Hentry)
      as (talk' & Hin' & Hid & _).
    simpl in Hid. apply sort_by_in in Hin'.
    assert (talk' = talk).
    { apply (same_id_same_talk (store_talks db));
        [exact primary_key | | exact Hstore | congruence].
      eapply grouped_subset; eassumption. }
    subst talk'. exists conference, session_talks. auto.
  - intros (c & session_talks & [= <-] & Hitem & Hin).
    assert (Hfiltered :
              In (bucket, session_talks)
                 (filter (fun item => truthy (snd item))
                    (grouped db conference (talk_status options) iter))).
    { apply filter_In. split; [exact Hitem|].
      destruct session_talks; [destruct Hin | reflexivity]. }
    destruct (Forall2_In_l _ _ _ _ _ _ Hbuckets Hfiltered)
      as ([b entries] & Hbucket & Hname & Hentries).
    simpl in Hname, Hentries. subst b.
    apply (sort_by_in sort_key) in Hin.
    destruct (Forall2_In_l _ _ _ _ _ _ Hentries Hin)
      as ([id report] & Hentry & Hid & _).
    simpl in Hid. subst id. exists entries, report. auto.
Qed.

End Document.

(** ** Runs that print *)

Lemma collect_returns (A B : Type) (f : A -> result B) l :
  (forall a, In a l -> exists b, f a = Ok b) ->
  exists bs, collect f l = Ok bs.
Proof.
  induction l as [|a rest IH]; intros H; simpl.
  - exists []. reflexivity.
  - destruct (H a (or_introl eq_refl)) as [b ->].
    destruct IH as [bs ->]; [intros a' Ha'; apply H; now right|].
    exists (b :: bs). reflexivity.
Qed.

Lemma have_tickets_loop_returns (check : User.t -> result bool) usrs :
  forall have_tkt,
    (forall sp, In sp usrs -> exists b, check (Speaker.user sp) = Ok b) ->
    exists bs, have_tickets_loop check usrs have_tkt = ([], Ok bs).
Proof.
  induction usrs as [|sp rest IH]; intros have_tkt H; simpl.
  - exists have_tkt. reflexivity.
  - destruct (H sp (or_introl eq_refl)) as [b ->].
    apply IH. intros sp' Hsp'. apply H. now right.
Qed.

Section Returns.
Variables (globals : Globals) (db : Store) (conference : str)
          (with_votes : bool).

Lemma talk_report_returns talk :
  reportable db talk ->
  exists out report,
    talk_report globals db conference talk = (out, Ok report).
Proof.
  intros Hok. unfold talk_report.
  assert (Hschedule : exists out timerange,
             talk_schedule globals talk = (out, Ok timerange)).
  { unfold talk_schedule.
    destruct (Talk.get_event talk); [eexists; eexists; reflexivity|].
    destruct (VERBOSE globals); eexists; eexists; reflexivity. }
  destruct Hschedule as (out & timerange & ->).
  destruct (have_tickets_loop_returns (has_ticket db)
              (Talk.get_all_speakers talk) [])
    as [have_tkt Htkt]; [intros sp Hsp; apply Hok, Hsp|].
  unfold have_tickets, have_tickets_with. rewrite Htkt.
  assert (Htwitters : exists handles, speaker_twitters talk = Ok handles).
  { unfold speaker_twitters.
    edestruct (collect_returns Speaker.t unicode) as [handles ->];
      [|eexists; reflexivity].
    intros sp Hsp. destruct (Hok sp Hsp) as [_ Hprofile].
    destruct (User.attendeeprofile (Speaker.user sp));
      [eexists; reflexivity | congruence]. }
  destruct Htwitters as [handles ->].
  eexists. eexists. reflexivity.
Qed.

Lemma session_entries_returns session_talks :
  forall entries,
    (forall talk, In talk session_talks -> reportable db talk) ->
    exists out result,
      session_entries globals db conference with_votes session_talks entries
      = (out, Ok result).
Proof.
  induction session_talks as [|talk rest IH]; intros entries H; simpl.
  - eexists. eexists. reflexivity.
  - destruct (talk_report_returns talk (H talk (or_introl eq_refl)))
      as (out & report & ->).
    unfold bind, Ok. cbn beta iota.
    match goal with
    | |- context [session_entries _ _ _ _ rest ?e] =>
        destruct (IH e) as (out' & result & E)
    end; [intros t Ht; apply H; now right|].
    exists (out ++ out'), result. rewrite E. reflexivity.
Qed.

Lemma build_sessions_returns items :
  forall sessions,
    (forall bucket session_talks talk,
        In (bucket, session_talks) items -> In talk session_talks ->
        reportable db talk) ->
    exists out result,
      build_sessions globals db conference with_votes items sessions
      = (out, Ok result).
Proof.
  induction items as [|[type_name session_talks] rest IH];
    intros sessions H; simpl.
  - eexists. eexists. reflexivity.
  - assert (Hrest : forall bucket l talk,
               In (bucket, l) rest -> In talk l -> reportable db talk).
    { intros bucket l talk Hin. apply (H bucket l talk). now right. }
    destruct (negb (truthy session_talks)); [apply IH, Hrest|].
    destruct (session_entries_returns (sort_by sort_key session_talks) [])
      as (out & entries & ->).
    { intros talk Ht. apply sort_by_in in Ht.
      apply (H type_name session_talks talk); [now left | exact Ht]. }
    unfold bind, Ok. cbn beta iota.
    match goal with
    | |- context [build_sessions _ _ _ _ rest ?d] =>
        destruct (IH d Hrest) as (out' & result & E)
    end.
    exists (out ++ out'), result. rewrite E. reflexivity.
Qed.

End Returns.

(** [handle] prints the document, last, when it is given a conference
    and can report on every talk of the store. *)
Lemma handle_prints_when_reportable globals iter db conference rest options :
  (forall talk, In talk (store_talks db) -> reportable db talk) ->
  exists out sessions,
    snd (handle globals iter db (conference :: rest) options)
    = (out ++ [PrintJson sessions], Ok tt).
Proof.
  intros H. unfold handle. cbv zeta. cbn [snd].
  replace (frame_globals
             (if verbose options
              then assign_VERBOSE
                     {| frame_globals := globals; local_VERBOSE := None |}
                     true
              else {| frame_globals := globals; local_VERBOSE := None |}))
    with globals by (destruct (verbose options); reflexivity).
  fold (grouped db conference (talk_status options) iter).
  destruct (build_sessions_returns globals db conference (votes options)
              (grouped db conference (talk_status options) iter) [])
    as (out & sessions & ->).
  - intros bucket session_talks talk Hitem Hin. apply H.
    eapply grouped_subset; eassumption.
  - exists out, sessions. reflexivity.
Qed.

(** ** Grouping *)

(** C5. In the document, a talk of the queried conference and status
    whose admin type is empty and whose type belongs to one of the six
    groups has an entry in the bucket of that group and in no other
    bucket; a talk whose admin type is not empty has entries only in the
    bucket named after its admin type, which is none of the six group
    buckets.  The admin types of [models.TALK_ADMIN_TYPE] are taken not to
    include the empty code. *)
Theorem grouping_is_exclusive globals iter db args options sessions :
  NoDup (map Talk.id (store_talks db)) ->
  Permutation (type_groups_items iter) type_groups ->
  (forall adm_type type_name,
      In (adm_type, type_name) (TALK_ADMIN_TYPE_items iter) ->
      adm_type <> []) ->
  In (PrintJson sessions) (fst (snd (handle globals iter db args options))) ->
  forall talk,
    In talk (store_talks db) ->
    (Talk.admin_type talk = [] ->
     hd_error args = Some (Talk.conference talk) ->
     Talk.status talk = talk_status options ->
     forall grp_name grp_types,
       In (grp_name, grp_types) type_groups ->
       In (Talk.type talk) grp_types ->
       forall bucket, appears sessions bucket talk <-> bucket = grp_name) /\
    (Talk.admin_type talk <> [] ->
     forall bucket,
       appears sessions bucket talk ->
       In (Talk.admin_type talk, bucket) (TALK_ADMIN_TYPE_items iter) /\
       ~ In bucket (map fst type_groups)).
Proof.
  intros Hpk Hperm Hcodes Hprinted talk Hstore. split.
  - intros Hadmin Hconf Hstatus grp_name grp_types Hgrp Htype bucket.
    rewrite (appears_iff globals iter db args options sessions
               Hpk Hperm Hprinted bucket talk Hstore).
    split.
    + intros (conference & session_talks & _ & Hitem & Hin).
      apply in_grouped in Hitem.
      destruct Hitem as [(types & Hg & ->) | (code & Hc & _ & ->)].
      * apply in_grp_talks in Hin.
        apply (group_of_type_unique _ _ type_groups
                 bucket types grp_name grp_types (Talk.type talk));
          [apply type_groups_types_NoDup | | exact Hgrp | tauto | exact Htype].
        eapply Permutation_in; [exact Hperm | exact Hg].
      * apply in_talks_filter in Hin. destruct Hin as (_ & _ & _ & E).
        apply eqb_eq in E. destruct (Hcodes _ _ Hc). congruence.
    + intros ->.
      exists (Talk.conference talk),
        (grp_talks db (Talk.conference talk) (talk_status options) grp_types).
      split; [exact Hconf|]. split.
      * apply group_in_grouped.
        -- eapply Permutation_NoDup;
             [apply Permutation_map; symmetry; exact Hperm|].
           apply type_groups_names_NoDup.
        -- eapply Permutation_in; [symmetry; exact Hperm | exact Hgrp].
      * apply in_grp_talks. auto.
  - intros Hadmin bucket Happears.
    apply (appears_iff globals iter db args options sessions
             Hpk Hperm Hprinted bucket talk Hstore) in Happears.
    destruct Happears as (conference & session_talks & _ & Hitem & Hin).
    apply in_grouped in Hitem.
    destruct Hitem as [(types & Hg & ->) | (code & Hc & Hname & ->)].
    + apply in_grp_talks in Hin. tauto.
    + apply in_talks_filter in Hin. destruct Hin as (_ & _ & _ & E).
      apply eqb_eq in E. subst code. split; [exact Hc|].
      intros H. apply Hname.
      eapply Permutation_in;
        [apply Permutation_map; symmetry; exact Hperm | exact H].
Qed.

Lemma example_run_keys : NoDup (map Talk.id (store_talks ExampleRun.db)).
Proof.
  repeat (constructor;
          [ let H := fresh in
            intros H; repeat (destruct H as [H|H]; [discriminate H|]);
            exact H
          | ]).
  constructor.
Defined.

Lemma example_run_printed :
  In (PrintJson ExampleRun.sessions)
     (fst (snd (handle module_globals ExampleRun.iter ExampleRun.db
                  ExampleRun.args (ExampleRun.options true)))).
Proof. left. reflexivity. Defined.

Lemma grouping_is_exclusive_witness :
  (forall bucket,
      appears ExampleRun.sessions bucket ExampleRun.apple <->
      bucket = u "talk") /\
  (forall bucket,
      appears ExampleRun.sessions bucket ExampleRun.opening ->
      In (u "o", bucket) (TALK_ADMIN_TYPE_items ExampleRun.iter) /\
      ~ In bucket (map fst type_groups)).
Proof.
  assert (Hcodes : forall adm_type type_name,
             In (adm_type, type_name) (TALK_ADMIN_TYPE_items ExampleRun.iter) ->
             adm_type <> []).
  { intros adm_type type_name [H | [H | []]];
      injection H as <- _; intros E; discriminate E. }
  pose proof (grouping_is_exclusive
                module_globals ExampleRun.iter ExampleRun.db ExampleRun.args
                (ExampleRun.options true) ExampleRun.sessions
                example_run_keys (Permutation_refl _) Hcodes
                example_run_printed) as H.
  split.
  - apply (proj1 (H ExampleRun.apple (or_intror (or_introl eq_refl)))
             eq_refl eq_refl eq_refl (u "talk")
             [u "t_30"; u "t_45"; u "t_60"]).
    + left. reflexivity.
    + left. reflexivity.
  - apply (proj2 (H ExampleRun.opening
                    (or_intror (or_intror (or_introl eq_refl))))).
    vm_compute. intros E. discriminate E.
Defined.

(** ** Order within a bucket *)

Lemma entry_key talk entry :
  entry_of talk entry ->
  sort_key talk = Text.title (Report.title (snd entry)).
Proof. intros (_ & _ & E). unfold sort_key. rewrite E. reflexivity. Qed.

(** C7. Every bucket of the document is not empty, and its entries are
    in ascending order of the title-cased bytes of their cleaned titles,
    the bytes compared one by one: the entries are those of the talks of
    the bucket, sorted on [clean_title(talk.title).encode('utf-8').title()]. *)
Theorem buckets_sorted_by_title globals iter db args options sessions :
  NoDup (map Talk.id (store_talks db)) ->
  Permutation (type_groups_items iter) type_groups ->
  In (PrintJson sessions) (fst (snd (handle globals iter db args options))) ->
  forall bucket entries,
    In (bucket, entries) sessions ->
    entries <> [] /\
    ascending_by (fun entry => Text.title (Report.title (snd entry)))
                 entries /\
    exists conference session_talks,
      hd_error args = Some conference /\
      In (bucket, session_talks)
         (grouped db conference (talk_status options) iter) /\
      Forall2 entry_of (sort_by sort_key session_talks) entries /\
      ascending_by sort_key (sort_by sort_key session_talks).
Proof.
  intros Hpk Hperm Hprinted bucket entries Hbucket.
  destruct (printed_buckets globals iter db args options sessions
              Hpk Hperm Hprinted)
    as (conference & rest & -> & Hbuckets).
  destruct (Forall2_In_r _ _ _ _ _ _ Hbuckets Hbucket)
    as ([b session_talks] & Hitem & Hname & Hentries).
  simpl in Hname, Hentries. subst b. apply filter_In in Hitem.
  destruct Hitem as [Hitem Hnonempty]. simpl in Hnonempty.
  split; [|split].
  - intros ->. inversion Hentries as [E|]. symmetry in E.
    apply sort_by_nil in E. subst session_talks. discriminate Hnonempty.
  - eapply ascending_Forall2;
      [exact entry_key | exact Hentries | apply sort_by_ascending].
  - exists conference, session_talks.
    split; [reflexivity|]. split; [exact Hitem|].
    split; [exact Hentries | apply sort_by_ascending].
Qed.

(** In the example the bucket [talk] lists "apple  pie" before "Zebra",
    although the bytes of "Zebra" come first. *)
Lemma buckets_sorted_by_title_witness :
  ascending_by (fun entry => Text.title (Report.title (snd entry)))
    (match OrderedDict.get Text.eqb ExampleRun.sessions (u "talk") with
     | Some entries => entries
     | None => []
     end) /\
  ExampleRun.talk_ids "talk" = [2; 1]%Z /\
  Text.leb (Talk.title ExampleRun.apple) (Talk.title ExampleRun.zebra) = false.
Proof.
  split; [|split; reflexivity].
  destruct (OrderedDict.get Text.eqb ExampleRun.sessions (u "talk"))
    as [entries|] eqn:E; [|constructor].
  apply (buckets_sorted_by_title
           module_globals ExampleRun.iter ExampleRun.db ExampleRun.args
           (ExampleRun.options true) ExampleRun.sessions
           example_run_keys (Permutation_refl _) example_run_printed
           (u "talk") entries).
  vm_compute in E. injection E as <-. vm_compute. right. left. reflexivity.
Defined.

(** * Further properties *)

(** ** [clean_title]: length, blank titles, clean titles *)

Lemma lstrip_length s : (length (lstrip s) <= length s)%nat.
Proof.
  induction s as [|c r IH]; simpl; [lia|].
  destruct (isspace c); simpl; lia.
Qed.

Lemma strip_length s : (length (strip s) <= length s)%nat.
Proof.
  unfold strip, rstrip. rewrite length_rev.
  etransitivity; [apply lstrip_length|]. rewrite length_rev.
  apply lstrip_length.
Qed.

Lemma replace_double_space_length s :
  (length (replace_double_space s) <= length s)%nat.
Proof.
  induction s as [| a | a b l IHl IHbl] using list_ind2;
    [simpl; lia | simpl; lia |].
  change (replace_double_space (a :: b :: l)) with
    (if (a =? SPACE) && (b =? SPACE)
     then SPACE :: replace_double_space l
     else a :: replace_double_space (b :: l)).
  destruct ((a =? SPACE) && (b =? SPACE)); simpl in *; lia.
Qed.

Lemma slice_1_m1_length s : (length (slice_1_m1 s) <= length s)%nat.
Proof.
  unfold slice_1_m1. rewrite length_skipn, length_firstn. lia.
Qed.

(** The cleaned title is never longer than the title. *)
Theorem clean_title_length title :
  (length (clean_title title) <= length title)%nat.
Proof.
  unfold clean_title.
  pose proof (strip_length title) as Hstrip.
  pose proof (strip_idempotent title) as Hidem.
  destruct (strip title) as [|c r] eqn:Et; [simpl; lia|].
  rewrite Hidem.
  pose proof (replace_double_space_length (c :: r)) as Hrep.
  destruct ((first_char (replace_double_space (c :: r)) =? QUOTE) &&
            (last_char (replace_double_space (c :: r)) =? QUOTE)).
  - pose proof (slice_1_m1_length (replace_double_space (c :: r))). lia.
  - lia.
Qed.

Lemma lstrip_nil_iff s :
  lstrip s = [] <-> Forall (fun c => isspace c = true) s.
Proof.
  induction s as [|c r IH]; simpl.
  - split; [constructor | reflexivity].
  - destruct (isspace c) eqn:E.
    + rewrite IH. split; [intros H; constructor; assumption|].
      intros H. inversion H. assumption.
    + split; [discriminate|]. intros H. inversion H. congruence.
Qed.

(** A title is blank when it holds whitespace only. *)
Lemma strip_nil_iff s :
  strip s = [] <-> Forall (fun c => isspace c = true) s.
Proof.
  unfold strip, rstrip. split.
  - intros H. apply (f_equal (@rev N)) in H. rewrite rev_involutive in H.
    simpl in H. apply lstrip_nil_iff in H. apply Forall_rev in H.
    rewrite rev_involutive in H.
    destruct (lstrip_suffix s) as [p Hp].
    assert (Hlead : lstrip s = [] \/ lstrip s <> []).
    { destruct (lstrip s); [now left | right; discriminate]. }
    destruct Hlead as [E | Hne]; [apply lstrip_nil_iff, E|].
    pose proof (lstrip_no_leading_space s) as Hns.
    destruct (lstrip s) as [|c r]; [congruence|].
    simpl in Hns. inversion H. congruence.
  - intros H. apply lstrip_nil_iff in H. rewrite H. reflexivity.
Qed.

Lemma replace_double_space_two s :
  (length (replace_double_space s) <= 2)%nat ->
  hd 0 s = QUOTE ->
  replace_double_space s = s \/ exists c, s = [QUOTE; c; c].
Proof.
  destruct s as [|a [|b [|c [|d l]]]]; simpl; intros Hlen Hq; auto.
  - subst a. auto.
  - subst a. simpl. destruct ((b =? SPACE) && (c =? SPACE)) eqn:E.
    + apply andb_true_iff in E. destruct E as [Eb Ec].
      apply N.eqb_eq in Eb, Ec. subst. right. exists SPACE. reflexivity.
    + simpl in Hlen. lia.
  - subst a. simpl in Hlen.
    destruct ((b =? SPACE) && (c =? SPACE)); simpl in Hlen.
    + destruct l as [|e l]; simpl in Hlen; [lia|].
      destruct ((d =? SPACE) && (e =? SPACE)); simpl in Hlen; lia.
    + destruct ((c =? SPACE) && (d =? SPACE)); simpl in Hlen; lia.
Qed.

Lemma slice_1_m1_nil s : slice_1_m1 s = [] -> (length s <= 2)%nat.
Proof.
  intros H. apply (f_equal (@length N)) in H. unfold slice_1_m1 in H.
  rewrite length_skipn, length_firstn in H. simpl in H. lia.
Qed.

(** The cleaned title is empty exactly when the title, once trimmed, is
    empty, one double quote, or two double quotes. *)
Theorem clean_title_empty_iff title :
  clean_title title = [] <->
  strip title = [] \/ strip title = [QUOTE] \/ strip title = [QUOTE; QUOTE].
Proof.
  unfold clean_title.
  pose proof (strip_idempotent title) as Hidem.
  destruct (strip title) as [|c r] eqn:Et; [tauto|].
  rewrite Hidem. split.
  - intros H. right.
    destruct ((first_char (replace_double_space (c :: r)) =? QUOTE) &&
              (last_char (replace_double_space (c :: r)) =? QUOTE)) eqn:Eq.
    + apply andb_true_iff in Eq. destruct Eq as [Ef El].
      apply N.eqb_eq in Ef, El. unfold first_char, last_char in Ef, El.
      rewrite replace_double_space_hd in Ef.
      rewrite replace_double_space_last in El.
      apply slice_1_m1_nil in H.
      destruct (replace_double_space_two (c :: r) H Ef) as [E | [x E]].
      * rewrite E in H. simpl in Ef. subst c.
        destruct r as [|b [|b' r']]; simpl in H; [auto | | lia].
        simpl in El. subst b. auto.
      * rewrite E in El. simpl in El. subst x. rewrite E in H.
        vm_compute in H. lia.
    + exfalso. revert H. apply replace_double_space_nonempty. discriminate.
  - intros [H | [H | H]]; [discriminate | |]; injection H as -> ->;
      reflexivity.
Qed.

Lemma replace_double_space_fixpoint s :
  has_double_space s = false -> replace_double_space s = s.
Proof.
  induction s as [|c r IH]; [reflexivity|].
  destruct r as [|c' r']; [reflexivity|].
  change (has_double_space (c :: c' :: r')) with
    (((c =? SPACE) && (c' =? SPACE)) || has_double_space (c' :: r')).
  change (replace_double_space (c :: c' :: r')) with
    (if (c =? SPACE) && (c' =? SPACE)
     then SPACE :: replace_double_space r'
     else c :: replace_double_space (c' :: r')).
  intros H. apply orb_false_iff in H. destruct H as [-> H].
  rewrite (IH H). reflexivity.
Qed.

Lemma strip_fixpoint s :
  no_leading_space s -> no_leading_space (rev s) -> strip s = s.
Proof.
  intros H1 H2. unfold strip, rstrip.
  rewrite (lstrip_fixpoint _ H1), (lstrip_fixpoint _ H2).
  apply rev_involutive.
Qed.

(** A title that neither starts nor ends with whitespace, has no two
    consecutive spaces, and is not enclosed in double quotes is left as
    it is. *)
Theorem clean_title_of_clean title :
  no_leading_space title ->
  no_leading_space (rev title) ->
  has_double_space title = false ->
  starts_with_quote title && ends_with_quote title = false ->
  clean_title title = title.
Proof.
  intros Hlead Htrail Hdouble Hquote. unfold clean_title.
  rewrite (strip_fixpoint _ Hlead Htrail).
  destruct title as [|c r]; [reflexivity|].
  rewrite (strip_fixpoint _ Hlead Htrail).
  rewrite (replace_double_space_fixpoint _ Hdouble).
  rewrite ends_with_quote_last_char in Hquote by discriminate.
  simpl in Hquote. unfold first_char. simpl hd. rewrite Hquote.
  reflexivity.
Qed.

Lemma clean_title_of_clean_witness :
  clean_title (u "Hello World") = u "Hello World".
Proof.
  apply clean_title_of_clean; reflexivity.
Defined.

(** ** The sort key ignores the case of ASCII letters *)

Lemma isspace_range c : isspace c = true -> c <= 32 \/ 133 <= c.
Proof.
  unfold isspace. intros H.
  repeat (apply orb_true_iff in H; destruct H as [H | H]);
    repeat (apply andb_true_iff in H; destruct H as [H ?]);
    repeat match goal with
           | H : (_ <=? _) = true |- _ => apply N.leb_le in H
           | H : (_ =? _) = true |- _ => apply N.eqb_eq in H
           end; lia.
Qed.

Lemma isupper_range c : isupper c = true <-> 65 <= c <= 90.
Proof. unfold isupper. rewrite andb_true_iff, !N.leb_le. tauto. Qed.

Lemma to_lower_ascii c : c < 128 -> to_lower c < 128.
Proof.
  unfold to_lower. destruct (isupper c) eqn:E; [|auto].
  apply isupper_range in E. lia.
Qed.

Lemma to_lower_high c : 128 <= c -> to_lower c = c.
Proof.
  unfold to_lower. destruct (isupper c) eqn:E; [|auto].
  apply isupper_range in E. lia.
Qed.

Lemma to_lower_isspace c : isspace (to_lower c) = isspace c.
Proof.
  unfold to_lower. destruct (isupper c) eqn:E; [|reflexivity].
  apply isupper_range in E.
  destruct (isspace c) eqn:E1; [apply isspace_range in E1; lia|].
  destruct (isspace (c + 32)) eqn:E2; [apply isspace_range in E2; lia|].
  reflexivity.
Qed.

Lemma to_lower_eqb c k :
  k < 65 -> (to_lower c =? k) = (c =? k).
Proof.
  intros Hk. unfold to_lower. destruct (isupper c) eqn:E; [|reflexivity].
  apply isupper_range in E.
  rewrite (proj2 (N.eqb_neq (c + 32) k)), (proj2 (N.eqb_neq c k)) by lia.
  reflexivity.
Qed.

(** The text operations of [clean_title] commute with a change of
    characters that keeps whitespace, spaces and quotes apart from the
    rest. *)
Section Relabel.
Variable f : N -> N.
Hypothesis f_isspace : forall c, isspace (f c) = isspace c.
Hypothesis f_space : forall c, (f c =? SPACE) = (c =? SPACE).
Hypothesis f_quote : forall c, (f c =? QUOTE) = (c =? QUOTE).

Lemma lstrip_map s : lstrip (map f s) = map f (lstrip s).
Proof.
  induction s as [|c r IH]; [reflexivity|]. simpl.
  rewrite f_isspace. destruct (isspace c); [exact IH | reflexivity].
Qed.

Lemma strip_map s : strip (map f s) = map f (strip s).
Proof.
  unfold strip, rstrip.
  rewrite lstrip_map, <- map_rev, lstrip_map, map_rev. reflexivity.
Qed.

Lemma replace_double_space_map s :
  replace_double_space (map f s) = map f (replace_double_space s).
Proof.
  induction s as [| a | a b l IHl IHbl] using list_ind2;
    [reflexivity | reflexivity |].
  change (replace_double_space (a :: b :: l)) with
    (if (a =? SPACE) && (b =? SPACE)
     then SPACE :: replace_double_space l
     else a :: replace_double_space (b :: l)).
  change (replace_double_space (map f (a :: b :: l))) with
    (if (f a =? SPACE) && (f b =? SPACE)
     then SPACE :: replace_double_space (map f l)
     else f a :: replace_double_space (map f (b :: l))).
  rewrite !f_space.
  destruct ((a =? SPACE) && (b =? SPACE)) eqn:E.
  - rewrite IHl. simpl. f_equal.
    pose proof (f_space SPACE) as H. rewrite N.eqb_refl in H.
    apply N.eqb_eq in H. symmetry. exact H.
  - rewrite IHbl. reflexivity.
Qed.

Lemma first_char_map s :
  s <> [] -> (first_char (map f s) =? QUOTE) = (first_char s =? QUOTE).
Proof. destruct s; [congruence|]. intros _. apply f_quote. Qed.

Lemma last_char_map s :
  s <> [] -> (last_char (map f s) =? QUOTE) = (last_char s =? QUOTE).
Proof.
  intros H. unfold last_char.
  rewrite (app_removelast_last 0 H) at 1.
  rewrite map_app. cbn [map]. rewrite last_last. apply f_quote.
Qed.

Lemma slice_1_m1_map s : slice_1_m1 (map f s) = map f (slice_1_m1 s).
Proof.
  unfold slice_1_m1. rewrite length_map, firstn_map, skipn_map.
  reflexivity.
Qed.

Lemma clean_title_map title :
  clean_title (map f title) = map f (clean_title title).
Proof.
  unfold clean_title. rewrite strip_map.
  pose proof (strip_idempotent title) as Hidem.
  destruct (strip title) as [|c r] eqn:Et; [reflexivity|].
  change (map f (c :: r)) with (f c :: map f r) at 1.
  cbv iota beta. rewrite strip_map, Hidem, replace_double_space_map.
  assert (Hne : replace_double_space (c :: r) <> [])
    by (apply replace_double_space_nonempty; discriminate).
  rewrite (first_char_map _ Hne), (last_char_map _ Hne).
  destruct ((first_char (replace_double_space (c :: r)) =? QUOTE) &&
            (last_char (replace_double_space (c :: r)) =? QUOTE));
    [apply slice_1_m1_map | reflexivity].
Qed.

End Relabel.

Lemma lor_high k x : N.testbit k 7 = true -> 128 <= N.lor k x.
Proof.
  intros Hk. destruct (N.le_gt_cases 128 (N.lor k x)) as [H | H]; [exact H|].
  assert (Hbit : N.testbit (N.lor k x) 7 = true)
    by (rewrite N.lor_spec, Hk; reflexivity).
  apply N.testbit_true in Hbit.
  change (2 ^ 7) with 128 in Hbit.
  rewrite (N.div_small _ _ H) in Hbit. discriminate Hbit.
Qed.

Lemma encode_char_to_lower c :
  encode_char (to_lower c) = map to_lower (encode_char c).
Proof.
  unfold encode_char. destruct (c <? 128) eqn:E.
  - apply N.ltb_lt in E.
    rewrite (proj2 (N.ltb_lt _ _) (to_lower_ascii c E)). reflexivity.
  - apply N.ltb_ge in E. rewrite (to_lower_high c E).
    rewrite (proj2 (N.ltb_ge _ _) E).
    destruct (c <? 2048); [|destruct (c <? 65536)]; cbn [map];
      rewrite !to_lower_high by (apply lor_high; reflexivity);
      reflexivity.
Qed.

Lemma encode_utf8_to_lower s :
  encode_utf8 (map to_lower s) = map to_lower (encode_utf8 s).
Proof.
  unfold encode_utf8. induction s as [|c r IH]; [reflexivity|].
  simpl. rewrite map_app, IH, encode_char_to_lower. reflexivity.
Qed.

Lemma title_from_to_lower previous_is_cased s :
  title_from previous_is_cased (map to_lower s) =
  title_from previous_is_cased s.
Proof.
  revert previous_is_cased. induction s as [|c r IH];
    intros previous_is_cased; [reflexivity|].
  simpl. destruct (isupper c) eqn:Eu.
  - assert (E : to_lower c = c + 32) by (unfold to_lower; rewrite Eu; auto).
    pose proof (proj1 (isupper_range c) Eu) as Hc.
    assert (El : islower (c + 32) = true).
    { unfold islower. apply andb_true_iff.
      split; apply N.leb_le; lia. }
    assert (El' : islower c = false).
    { unfold islower. apply andb_false_iff. left. apply N.leb_gt. lia. }
    rewrite E, El, El', IH.
    replace (c + 32 - 32) with c by lia. reflexivity.
  - assert (E : to_lower c = c) by (unfold to_lower; rewrite Eu; auto).
    rewrite E, Eu. destruct (islower c); rewrite IH; reflexivity.
Qed.

(** Two titles that differ only in the case of ASCII letters have the
    same sort key, so the order of the buckets does not depend on
    case. *)
Theorem sort_key_ignores_case talk1 talk2 :
  map to_lower (Talk.title talk1) = map to_lower (Talk.title talk2) ->
  sort_key talk1 = sort_key talk2.
Proof.
  assert (H : forall talk,
             sort_key talk =
             Text.title
               (encode_utf8 (clean_title (map to_lower (Talk.title talk))))).
  { intros talk. unfold sort_key, Text.title.
    rewrite (clean_title_map to_lower to_lower_isspace)
      by (intros c; apply to_lower_eqb; reflexivity).
    rewrite encode_utf8_to_lower, title_from_to_lower. reflexivity. }
  intros E. rewrite (H talk1), (H talk2), E. reflexivity.
Qed.

Lemma sort_key_ignores_case_witness :
  sort_key ExampleRun.zebra =
  sort_key (ExampleTalks.mk_talk 9 "zEBRA" "t_30" "" []).
Proof.
  apply sort_key_ignores_case. reflexivity.
Defined.

(** ** Ties in the sort *)

Lemma insert_filter_key (A : Type) (key : A -> list N) k x l :
  filter (fun y => Text.eqb (key y) k) (insert key x l) =
  filter (fun y => Text.eqb (key y) k) (x :: l).
Proof.
  induction l as [|y rest IH]; [reflexivity|].
  simpl insert. destruct (Text.leb (key x) (key y)) eqn:E; [reflexivity|].
  simpl filter in *. rewrite IH.
  destruct (Text.eqb (key x) k) eqn:Ex, (Text.eqb (key y) k) eqn:Ey;
    try reflexivity.
  apply eqb_eq in Ex, Ey. rewrite Ex, Ey, leb_refl in E. discriminate E.
Qed.

(** The sort of line 229 is stable: the talks of a bucket whose sort keys
    are equal stay in the order in which the queries returned them. *)
Theorem sort_by_stable (A : Type) (key : A -> list N) k l :
  filter (fun x => Text.eqb (key x) k) (sort_by key l) =
  filter (fun x => Text.eqb (key x) k) l.
Proof.
  induction l as [|x rest IH]; [reflexivity|].
  simpl sort_by. rewrite insert_filter_key. simpl. rewrite IH. reflexivity.
Qed.

(** ** [speaker_companies] does not depend on order or repetition *)

Lemma NoDup_same_elements_perm (l l' : list unicode) :
  NoDup l -> NoDup l' -> (forall c, In c l <-> In c l') -> Permutation l l'.
Proof. intros H1 H2 H. apply NoDup_Permutation; assumption. Qed.

(** Two talks whose speakers with a profile have, between them, the same
    companies get the same [companies] text, whatever the order of the
    speakers and however many of them share a company. *)
Theorem speaker_companies_same_companies talk1 talk2 :
  (forall company,
      (exists speaker profile,
          In speaker (Talk.speakers talk1) /\
          User.attendeeprofile (Speaker.user speaker) = Some profile /\
          AttendeeProfile.company profile = company) <->
      (exists speaker profile,
          In speaker (Talk.speakers talk2) /\
          User.attendeeprofile (Speaker.user speaker) = Some profile /\
          AttendeeProfile.company profile = company)) ->
  speaker_companies talk1 = speaker_companies talk2.
Proof.
  intros H. unfold speaker_companies. f_equal.
  apply sorted_set_any_order.
  apply NoDup_same_elements_perm; try apply set_of_NoDup.
  assert (Hin : forall talk c,
             In c (flat_map
                     (fun speaker =>
                        match User.attendeeprofile (Speaker.user speaker) with
                        | Some profile => [AttendeeProfile.company profile]
                        | None => []
                        end) (Talk.speakers talk)) <->
             exists speaker profile,
               In speaker (Talk.speakers talk) /\
               User.attendeeprofile (Speaker.user speaker) = Some profile /\
               AttendeeProfile.company profile = c).
  { intros talk c. rewrite in_flat_map. split.
    - intros (speaker & Hs & Hc).
      destruct (User.attendeeprofile (Speaker.user speaker))
        as [profile|] eqn:E; [|destruct Hc].
      destruct Hc as [<- | []]. exists speaker, profile. auto.
    - intros (speaker & profile & Hs & E & <-). exists speaker.
      rewrite E. split; [exact Hs | now left]. }
  intros c. rewrite !in_set_of, !Hin. apply H.
Qed.

Lemma speaker_companies_same_companies_witness :
  speaker_companies ExampleCompanies.talk =
  speaker_companies
    (ExampleTalks.mk_talk 5 "Hiring again" "t_30" ""
       [ExampleCompanies.heidi; ExampleCompanies.erin;
        ExampleCompanies.frank]).
Proof.
  apply speaker_companies_same_companies. intros company. split.
  - intros (speaker & profile & Hin & E & <-). simpl in Hin.
    destruct Hin as [<- | [<- | [<- | [<- | [<- | []]]]]];
      try discriminate E; injection E as <-.
    + exists (Speaker.Build_t ExampleCompanies.frank). eexists.
      split; [right; right; left; reflexivity | split; reflexivity].
    + exists (Speaker.Build_t ExampleCompanies.erin). eexists.
      split; [right; left; reflexivity | split; reflexivity].
    + exists (Speaker.Build_t ExampleCompanies.heidi). eexists.
      split; [left; reflexivity | split; reflexivity].
    + exists (Speaker.Build_t ExampleCompanies.frank). eexists.
      split; [right; right; left; reflexivity | split; reflexivity].
  - intros (speaker & profile & Hin & E & <-). simpl in Hin.
    destruct Hin as [<- | [<- | [<- | []]]]; injection E as <-.
    + exists (Speaker.Build_t ExampleCompanies.heidi). eexists.
      split; [right; right; right; left; reflexivity | split; reflexivity].
    + exists (Speaker.Build_t ExampleCompanies.erin). eexists.
      split; [right; left; reflexivity | split; reflexivity].
    + exists (Speaker.Build_t ExampleCompanies.frank). eexists.
      split; [left; reflexivity | split; reflexivity].
Defined.

(** ** [speaker_twitters] and [talk_schedule] *)

Lemma collect_ok_iff (A B : Type) (f : A -> result B) l bs :
  collect f l = Ok bs <-> Forall2 (fun a b => f a = Ok b) l bs.
Proof.
  unfold Ok, Raise. revert bs. induction l as [|a rest IH]; intros bs; simpl.
  - split; [intros [= <-]; constructor|].
    intros H. inversion H. reflexivity.
  - destruct (f a) as [e|b] eqn:Ea.
    + split; [discriminate|]. intros H.
      inversion H as [|? b ? ? Hb]; subst. cbn beta in Hb.
      rewrite Ea in Hb. discriminate Hb.
    + destruct (collect f rest) as [e|bs'] eqn:Ec.
      * split; [discriminate|]. intros H.
        inversion H as [|? ? ? bs'' ? Hrest]; subst.
        apply IH in Hrest. discriminate Hrest.
      * split.
        -- intros [= <-]. constructor; [exact Ea|]. apply IH. reflexivity.
        -- intros H. inversion H as [|? b' ? bs'' Hb Hrest]; subst.
           apply IH in Hrest. cbn beta in Hb. rewrite Ea in Hb.
           injection Hb as <-. injection Hrest as <-. reflexivity.
Qed.

Lemma collect_raise (A B : Type) (f : A -> result B) l e :
  collect f l = Raise e -> exists a, In a l /\ f a = Raise e.
Proof.
  unfold Ok, Raise. induction l as [|a rest IH]; simpl; [discriminate|].
  destruct (f a) as [e'|b] eqn:Ea.
  - intros [= <-]. exists a. auto.
  - destruct (collect f rest) as [e'|bs'] eqn:Ec; [|discriminate].
    intros [= <-]. destruct (IH eq_refl) as (a' & Hin & Ha').
    exists a'. auto.
Qed.

(** [speaker_twitters] raises exactly when one of the speakers has no
    profile, and then it raises [AttributeError]; otherwise it returns the
    handles of the speakers, each after an at sign, joined by [', ']. *)
Theorem speaker_twitters_spec talk :
  (speaker_twitters talk = Raise AttributeError <->
   exists speaker,
     In speaker (Talk.get_all_speakers talk) /\
     User.attendeeprofile (Speaker.user speaker) = None) /\
  (forall e, speaker_twitters talk = Raise e -> e = AttributeError) /\
  (forall twitters,
      speaker_twitters talk = Ok twitters ->
      twitters =
        join (u ", ")
             (map (fun speaker =>
                     u "@" ++
                     match User.attendeeprofile (Speaker.user speaker) with
                     | Some profile =>
                         AttendeeProfile.p3_profile_twitter profile
                     | None => []
                     end)
                  (Talk.get_all_speakers talk))).
Proof.
  unfold speaker_twitters.
  set (f := fun speaker =>
              match User.attendeeprofile (Speaker.user speaker) with
              | Some profile =>
                  Ok (u "@" ++ AttendeeProfile.p3_profile_twitter profile)
              | None => Raise AttributeError
              end).
  assert (Hf : forall speaker e, f speaker = Raise e ->
                 e = AttributeError /\
                 User.attendeeprofile (Speaker.user speaker) = None).
  { intros speaker e. unfold f, Ok, Raise.
    destruct (User.attendeeprofile (Speaker.user speaker));
      [discriminate | intros [= <-]; auto]. }
  destruct (collect f (Talk.get_all_speakers talk)) as [e|handles] eqn:Ec.
  - destruct (collect_raise _ _ f _ e Ec) as (speaker & Hin & Hs).
    destruct (Hf speaker e Hs) as [-> Hnone].
    split; [|split].
    + split; [intros _; exists speaker; auto | reflexivity].
    + intros e' [= <-]. reflexivity.
    + discriminate.
  - pose proof (proj1 (collect_ok_iff _ _ f _ handles) Ec) as Hall.
    split; [|split].
    + split; [discriminate|]. intros (speaker & Hin & Hnone).
      destruct (Forall2_In_l _ _ _ _ _ _ Hall Hin) as (h & _ & Hh).
      unfold f in Hh. rewrite Hnone in Hh. discriminate Hh.
    + discriminate.
    + intros twitters [= <-]. f_equal.
      clear Ec. induction Hall as [|speaker h l hs Hh _ IH];
        [reflexivity|].
      simpl. rewrite IH. f_equal. unfold f in Hh.
      destruct (User.attendeeprofile (Speaker.user speaker));
        [|discriminate Hh].
      injection Hh as <-. reflexivity.
Qed.

(** [talk_schedule] never raises.  It returns the empty string exactly
    when the talk has no event, and prints, then its warning and nothing
    else, exactly when moreover the module global [VERBOSE] is true. *)
Theorem talk_schedule_spec globals talk :
  (exists timerange, snd (talk_schedule globals talk) = Ok timerange) /\
  (snd (talk_schedule globals talk) = Ok [] <-> Talk.get_event talk = None) /\
  (fst (talk_schedule globals talk) =
   if VERBOSE globals && negb (truthy_event (Talk.get_event talk))
   then [PrintNotScheduled talk] else []).
Proof.
  unfold talk_schedule, truthy_event.
  destruct (Talk.get_event talk) as [event|].
  - rewrite andb_false_r. split; [eexists; reflexivity|].
    split; [|reflexivity]. split; [|discriminate].
    cbn. unfold Ok. intros [= H]. apply app_eq_nil in H.
    destruct H as [_ H]. discriminate H.
  - rewrite andb_true_r.
    destruct (VERBOSE globals); (split; [eexists; reflexivity|]);
      (split; [tauto | reflexivity]).
Qed.

(** ** [has_ticket]: when it raises, and what it ignores *)

Lemma is_ticket_assigned_to_someone_else_raise db ticket user e :
  is_ticket_assigned_to_someone_else db ticket user = Raise e ->
  (1 < length (ticket_conferences_of db ticket))%nat /\
  e = RuntimeError (ticket_conferences_of db ticket).
Proof.
  unfold is_ticket_assigned_to_someone_else, Ok, Raise.
  destruct (ticket_conferences_of db ticket) as [|tkt more] eqn:Et;
    [discriminate|].
  destruct (1 <? length (tkt :: more))%nat eqn:El.
  - intros [= <-]. apply Nat.ltb_lt in El. auto.
  - repeat match goal with
           | |- context [if ?b then _ else _] => destruct b
           end; discriminate.
Qed.

Lemma has_ticket_raise_duplicate db user e :
  has_ticket db user = Raise e ->
  exists ticket, (1 < length (ticket_conferences_of db ticket))%nat.
Proof.
  unfold has_ticket.
  destruct (truthy (get_tickets_assigned_to db user)); [discriminate|].
  intros H. apply has_ticket_loop_raise in H.
  destruct H as (pre & ticket & post & _ & _ & _ & Hraise).
  apply is_ticket_assigned_to_someone_else_raise in Hraise.
  exists ticket. tauto.
Qed.

(** The only exception of [has_ticket] is the [RuntimeError] of a
    ticket of the user whose fare code starts with ['T'] and that has
    more than one row; it carries those rows. *)
Theorem has_ticket_raises_on_duplicates_only db user e :
  has_ticket db user = Raise e ->
  exists ticket,
    In ticket (user_tickets db user) /\
    conference_ticket ticket = true /\
    (1 < length (ticket_conferences_of db ticket))%nat /\
    e = RuntimeError (ticket_conferences_of db ticket).
Proof.
  unfold has_ticket.
  destruct (truthy (get_tickets_assigned_to db user)); [discriminate|].
  intros H. apply has_ticket_loop_raise in H.
  destruct H as (pre & ticket & post & E & _ & Hconf & Hraise).
  apply is_ticket_assigned_to_someone_else_raise in Hraise.
  exists ticket. rewrite E. split; [apply in_elt | tauto].
Qed.

Lemma has_ticket_raises_on_duplicates_only_witness :
  exists ticket,
    In ticket (user_tickets Example.db Example.dave) /\
    conference_ticket ticket = true /\
    (1 < length (ticket_conferences_of Example.db ticket))%nat /\
    RuntimeError [Example.tc_dave_1; Example.tc_dave_2] =
    RuntimeError (ticket_conferences_of Example.db ticket).
Proof.
  apply (has_ticket_raises_on_duplicates_only Example.db Example.dave).
  reflexivity.
Defined.

Lemma filter_unique_key (A : Type) (key : A -> Z) k (l : list A) :
  NoDup (map key l) ->
  (length (filter (fun x => (key x =? k)%Z) l) <= 1)%nat.
Proof.
  induction l as [|x rest IH]; simpl; intros Hnd; [lia|].
  inversion Hnd as [|? ? Hnotin Hrest]; subst.
  destruct (key x =? k)%Z eqn:E; [|apply IH, Hrest].
  apply Z.eqb_eq in E. simpl.
  assert (Hnone : filter (fun y => (key y =? k)%Z) rest = []).
  { destruct (filter (fun y => (key y =? k)%Z) rest) as [|y l'] eqn:Ef;
      [reflexivity|].
    assert (Hy : In y (filter (fun y => (key y =? k)%Z) rest))
      by (rewrite Ef; now left).
    apply filter_In in Hy. destruct Hy as [Hy Hk]. apply Z.eqb_eq in Hk.
    destruct Hnotin. rewrite E, <- Hk. apply in_map, Hy. }
  rewrite Hnone. simpl. lia.
Qed.

(** When every ticket has at most one row, [has_ticket] answers for
    every user, and [have_tickets] returns a list for every talk and
    prints nothing. *)
Theorem one_row_per_ticket_no_exception db :
  one_row_per_ticket db ->
  (forall user, exists b, has_ticket db user = Ok b) /\
  (forall talk, exists have_tkt, have_tickets db talk = ([], Ok have_tkt)).
Proof.
  intros Hdb.
  assert (Hok : forall user, exists b, has_ticket db user = Ok b).
  { intros user. destruct (has_ticket db user) as [e|b] eqn:E;
      [|exists b; reflexivity].
    apply has_ticket_raise_duplicate in E.
    destruct E as (ticket & Hlen). exfalso.
    pose proof (filter_unique_key _
                  (fun row => Ticket.id (TicketConference.ticket row))
                  (Ticket.id ticket) (store_ticket_conferences db) Hdb).
    unfold ticket_conferences_of in Hlen. lia. }
  split; [exact Hok|].
  intros talk. apply have_tickets_loop_returns.
  intros sp _. apply Hok.
Qed.

Lemma one_row_per_ticket_no_exception_witness :
  (exists b, has_ticket ExampleEdge.sound Example.dave = Ok b) /\
  (exists have_tkt,
      have_tickets ExampleEdge.sound ExampleTalks.failing_speaker
      = ([], Ok have_tkt)).
Proof.
  assert (H : one_row_per_ticket ExampleEdge.sound).
  { unfold one_row_per_ticket.
    repeat (constructor;
            [ let H := fresh in
              intros H; repeat (destruct H as [H|H]; [discriminate H|]);
              exact H
            | ]).
    constructor. }
  destruct (one_row_per_ticket_no_exception ExampleEdge.sound H)
    as [Huser Htalk].
  split; [apply Huser | apply Htalk].
Defined.

(** A user whose tickets all have fare codes that do not start with
    ['T'], and to whose email no ticket is assigned, has no ticket; no row
    is looked up, so no duplicate can make the check raise. *)
Theorem has_ticket_ignores_other_fares db user :
  get_tickets_assigned_to db user = [] ->
  (forall ticket, In ticket (user_tickets db user) ->
                  conference_ticket ticket = false) ->
  has_ticket db user = Ok false.
Proof.
  intros Hnone Hfares. unfold has_ticket. rewrite Hnone. cbn [truthy].
  apply has_ticket_loop_false. intros t Hin Hconf.
  rewrite (Hfares t Hin) in Hconf. discriminate Hconf.
Qed.

Lemma has_ticket_ignores_other_fares_witness :
  has_ticket ExampleEdge.db ExampleEdge.eve = Ok false /\
  length (ticket_conferences_of ExampleEdge.db ExampleEdge.t_eve) = 2%nat.
Proof.
  split; [|reflexivity].
  apply has_ticket_ignores_other_fares; [reflexivity|].
  intros ticket [<- | []]. reflexivity.
Defined.

(** A user whose email is empty has a ticket as soon as some row of
    [TicketConference] is not reassigned: the query on [assigned_to]
    matches the rows whose [assigned_to] is empty. *)
Theorem has_ticket_empty_email db user :
  User.email user = [] ->
  (exists row, In row (store_ticket_conferences db) /\
               TicketConference.assigned_to row = []) ->
  has_ticket db user = Ok true.
Proof.
  intros Hemail (row & Hin & Hrow). unfold has_ticket.
  assert (H : In row (get_tickets_assigned_to db user)).
  { unfold get_tickets_assigned_to. apply filter_In. split; [exact Hin|].
    rewrite Hemail, Hrow. reflexivity. }
  destruct (get_tickets_assigned_to db user); [destruct H | reflexivity].
Qed.

Lemma has_ticket_empty_email_witness :
  has_ticket Example.db ExampleEdge.anonymous = Ok true /\
  user_tickets Example.db ExampleEdge.anonymous = [].
Proof.
  split; [|reflexivity].
  apply has_ticket_empty_email; [reflexivity|].
  exists Example.tc_alice. split; [left; reflexivity | reflexivity].
Defined.

Lemma has_ticket_loop_with_order db order user tickets :
  has_ticket_loop (with_order db order) user tickets =
  has_ticket_loop db user tickets.
Proof.
  induction tickets as [|tkt rest IH]; [reflexivity|].
  simpl. rewrite IH. reflexivity.
Qed.

(** An order that is not complete, or that is another user's, changes
    nothing to [has_ticket]: the tickets of its items are not looked
    at. *)
Theorem has_ticket_ignores_other_orders db order user :
  Order._complete order = false \/ Order.user order <> User.id user ->
  has_ticket (with_order db order) user = has_ticket db user.
Proof.
  intros H. unfold has_ticket.
  change (get_tickets_assigned_to (with_order db order) user)
    with (get_tickets_assigned_to db user).
  destruct (truthy (get_tickets_assigned_to db user)); [reflexivity|].
  rewrite has_ticket_loop_with_order. f_equal.
  unfold user_tickets, get_orders_from. simpl.
  assert (E : Order._complete order && (Order.user order =? User.id user)%Z
              = false).
  { destruct H as [-> | H]; [reflexivity|].
    apply Z.eqb_neq in H. rewrite H. apply andb_false_r. }
  rewrite E. reflexivity.
Qed.

Lemma has_ticket_ignores_other_orders_witness :
  has_ticket (with_order Example.db ExampleEdge.pending_order) Example.bob
  = Ok false.
Proof.
  rewrite has_ticket_ignores_other_orders; [reflexivity|].
  left. reflexivity.
Defined.

(** ** What a run of [handle] prints and raises *)

Lemma bind_raise (A B : Type) (m : M A) (k : A -> M B) out e :
  bind m k = (out, Raise e) <->
  m = (out, Raise e) \/
  exists out1 a out2,
    m = (out1, Ok a) /\ k a = (out2, Raise e) /\ out = out1 ++ out2.
Proof.
  unfold bind, Ok, Raise. destruct m as [out1 [e1|a]].
  - split.
    + intros [= <- <-]. now left.
    + intros [[= <- <-] | (? & ? & ? & [=] & _)]. reflexivity.
  - destruct (k a) as [out2 r] eqn:Ek. cbn. split.
    + intros [= <- ->]. right. exists out1, a, out2. auto.
    + intros [[=] | (o1 & a' & o2 & E1 & E2 & ->)].
      injection E1 as <- <-. rewrite Ek in E2. injection E2 as <- <-.
      reflexivity.
Qed.

Lemma handle_unfold globals iter db conference rest options :
  handle globals iter db (conference :: rest) options =
  (globals,
   bind (build_sessions globals db conference (votes options)
           (grouped db conference (talk_status options) iter) [])
        (fun sessions => print (PrintJson sessions))).
Proof. unfold handle. destruct (verbose options); reflexivity. Qed.

Lemma checks_return_or_raise (check : User.t -> result bool) usrs :
  (forall sp, In sp usrs -> exists b, check (Speaker.user sp) = Ok b) \/
  (exists sp, In sp usrs /\ exists e, check (Speaker.user sp) = Raise e).
Proof.
  induction usrs as [|sp rest [IH | (sp' & Hin & He)]].
  - left. intros sp [].
  - destruct (check (Speaker.user sp)) as [e|b] eqn:E.
    + right. exists sp. split; [now left | exists e; exact E].
    + left. intros sp' [<- | Hin]; [exists b; exact E | apply IH, Hin].
  - right. exists sp'. split; [now right | exact He].
Qed.

Lemma speaker_twitters_raise talk e :
  speaker_twitters talk = Raise e ->
  e = AttributeError /\
  exists speaker,
    In speaker (Talk.get_all_speakers talk) /\
    User.attendeeprofile (Speaker.user speaker) = None.
Proof.
  unfold speaker_twitters.
  match goal with
  | |- context [collect ?f ?l] =>
      destruct (collect f l) as [e'|handles] eqn:Ec; [|discriminate]
  end.
  intros [= <-]. apply collect_raise in Ec.
  destruct Ec as (speaker & Hin & Hs).
  destruct (User.attendeeprofile (Speaker.user speaker)) eqn:Ep;
    [discriminate Hs|].
  injection Hs as <-. split; [reflexivity|]. exists speaker. auto.
Qed.

Section Reports.
Variables (globals : Globals) (db : Store) (conference : str)
          (with_votes : bool).

Lemma talk_report_fields talk out report :
  talk_report globals db conference talk = (out, Ok report) ->
  have_tickets db talk = ([], Ok (Report.have_tickets report)) /\
  snd (talk_schedule globals talk) = Ok (Report.timerange report) /\
  (exists twitters,
      speaker_twitters talk = Ok twitters /\
      Report.twitters report = encode_utf8 twitters) /\
  Report.id report = Talk.id talk /\
  Report.companies report = encode_utf8 (speaker_companies talk) /\
  Report.emails report = encode_utf8 (speaker_emails talk) /\
  Report.speakers report = encode_utf8 (speaker_listing talk) /\
  Report.user_votes report = None.
Proof.
  unfold talk_report. intros H.
  apply bind_ok in H. destruct H as (o1 & timerange & o2 & E1 & H & _).
  apply bind_ok in H. destruct H as (o3 & have_tkt & o4 & E2 & H & _).
  apply bind_ok in H. destruct H as (o5 & twitters & o6 & E3 & H & _).
  unfold ret, Ok in H. injection H as _ <-. cbn.
  assert (o3 = []).
  { apply have_tickets_loop_ok in E2. tauto. }
  subst o3. rewrite E1. unfold lift in E3. injection E3 as _ E3.
  repeat split; try assumption; try reflexivity.
  exists twitters. split; [exact E3 | reflexivity].
Qed.

Lemma talk_report_reportable talk out report :
  talk_report globals db conference talk = (out, Ok report) ->
  reportable db talk.
Proof.
  intros H. apply talk_report_fields in H.
  destruct H as (Htkt & _ & (twitters & Htw & _) & _).
  apply have_tickets_loop_ok in Htkt. destruct Htkt as (_ & bs & _ & Hall).
  intros speaker Hin. split.
  - destruct (Forall2_In_l _ _ _ _ _ _ Hall Hin) as (b & _ & Hb).
    exists b. exact Hb.
  - intros Hnone. unfold speaker_twitters in Htw.
    match type of Htw with
    | context [collect ?f ?l] =>
        destruct (collect f l) as [e|handles] eqn:Ec;
          [discriminate Htw|];
          apply collect_ok_iff in Ec;
          destruct (Forall2_In_l _ _ _ _ _ _ Ec Hin) as (h & _ & Hh)
    end.
    cbn beta in Hh. rewrite Hnone in Hh. discriminate Hh.
Qed.

(** An exception of the report of a talk is that of [has_ticket] for one
    of the speakers, printed last, or the [AttributeError] of a speaker
    without a profile. *)
Lemma talk_report_raise talk out e :
  talk_report globals db conference talk = (out, Raise e) ->
  (exists speaker out',
      In speaker (Talk.get_all_speakers talk) /\
      has_ticket db (Speaker.user speaker) = Raise e /\
      out = out' ++ [PrintTraceback e]) \/
  (e = AttributeError /\
   exists speaker,
     In speaker (Talk.get_all_speakers talk) /\
     User.attendeeprofile (Speaker.user speaker) = None).
Proof.
  unfold talk_report. intros H.
  apply bind_raise in H.
  destruct H as [H | (o1 & timerange & o2 & E1 & H & ->)].
  { exfalso. unfold talk_schedule in H.
    destruct (Talk.get_event talk); [discriminate H|].
    destruct (VERBOSE globals); discriminate H. }
  apply bind_raise in H.
  destruct H as [H | (o3 & have_tkt & o4 & E2 & H & ->)].
  - left. unfold have_tickets, have_tickets_with in H.
    assert (Hfail : exists sp, In sp (Talk.get_all_speakers talk) /\
                               exists e', has_ticket db (Speaker.user sp)
                                          = Raise e').
    { destruct (checks_return_or_raise (has_ticket db)
                  (Talk.get_all_speakers talk))
        as [Hall | Hex]; [|exact Hex].
      destruct (have_tickets_loop_returns (has_ticket db)
                  (Talk.get_all_speakers talk) [] Hall) as [bs Hbs].
      rewrite Hbs in H. discriminate H. }
    destruct (first_failing_speaker _ _ Hfail)
      as (pre & sp & post & e' & E & Hpre & He').
    rewrite E in H.
    rewrite (have_tickets_loop_raise _ pre sp post [] e' Hpre He') in H.
    injection H as <- <-. exists sp, o1. rewrite E.
    split; [apply in_elt | auto].
  - right. apply bind_raise in H.
    destruct H as [H | (o5 & twitters & o6 & _ & H & _)];
      [|discriminate H].
    unfold lift in H. injection H as _ H.
    destruct (speaker_twitters_raise talk e H) as [-> Hs]. auto.
Qed.

End Reports.

Section Runs.
Variables (globals : Globals) (db : Store) (conference : str)
          (with_votes : bool).

Lemma session_entries_all_reportable session_talks :
  forall entries out result,
    session_entries globals db conference with_votes session_talks entries
      = (out, Ok result) ->
    forall talk, In talk session_talks -> reportable db talk.
Proof.
  induction session_talks as [|talk rest IH];
    intros entries out result H t Ht; [destruct Ht|].
  simpl in H. apply bind_ok in H.
  destruct H as (o1 & report & o2 & Hreport & H & _).
  destruct Ht as [<- | Ht].
  - eapply talk_report_reportable, Hreport.
  - eapply IH; eassumption.
Qed.

Lemma session_entries_raise session_talks :
  forall entries out e,
    session_entries globals db conference with_votes session_talks entries
      = (out, Raise e) ->
    exists talk out1 out2,
      In talk session_talks /\
      talk_report globals db conference talk = (out2, Raise e) /\
      out = out1 ++ out2.
Proof.
  induction session_talks as [|talk rest IH]; intros entries out e H;
    [discriminate H|].
  simpl in H. apply bind_raise in H.
  destruct H as [H | (o1 & report & o2 & _ & H & ->)].
  - exists talk, [], out. split; [now left | auto].
  - apply IH in H. destruct H as (t & p1 & p2 & Hin & Ht & ->).
    exists t, (o1 ++ p1), p2. rewrite app_assoc.
    split; [now right | auto].
Qed.

Lemma build_sessions_all_reportable items :
  forall sessions out result,
    build_sessions globals db conference with_votes items sessions
      = (out, Ok result) ->
    forall bucket session_talks talk,
      In (bucket, session_talks) items -> In talk session_talks ->
      reportable db talk.
Proof.
  induction items as [|[type_name l] rest IH];
    intros sessions out result H bucket session_talks talk Hitem Hin;
    [destruct Hitem|].
  simpl in H. destruct (truthy l) eqn:Et; simpl in H.
  - apply bind_ok in H. destruct H as (o1 & entries & o2 & He & H & _).
    destruct Hitem as [[= <- <-] | Hitem].
    + eapply session_entries_all_reportable; [exact He|].
      apply sort_by_in, Hin.
    + eapply IH; eassumption.
  - destruct Hitem as [[= <- <-] | Hitem].
    + apply truthy_false in Et. subst l. destruct Hin.
    + eapply IH; eassumption.
Qed.

Lemma build_sessions_raise items :
  forall sessions out e,
    build_sessions globals db conference with_votes items sessions
      = (out, Raise e) ->
    exists bucket session_talks talk out1 out2,
      In (bucket, session_talks) items /\ In talk session_talks /\
      talk_report globals db conference talk = (out2, Raise e) /\
      out = out1 ++ out2.
Proof.
  induction items as [|[type_name l] rest IH]; intros sessions out e H;
    [discriminate H|].
  simpl in H.
  assert (Hrest : forall sessions' out',
             build_sessions globals db conference with_votes rest sessions'
               = (out', Raise e) ->
             exists bucket session_talks talk out1 out2,
               In (bucket, session_talks) ((type_name, l) :: rest) /\
               In talk session_talks /\
               talk_report globals db conference talk = (out2, Raise e) /\
               out' = out1 ++ out2).
  { intros sessions' out' H'. apply IH in H'.
    destruct H' as (b & st & t & p1 & p2 & Hitem & Hin & Ht & ->).
    exists b, st, t, p1, p2. split; [now right | auto]. }
  destruct (truthy l); simpl in H; [|eapply Hrest, H].
  apply bind_raise in H.
  destruct H as [H | (o1 & entries & o2 & _ & H & ->)].
  - apply session_entries_raise in H.
    destruct H as (t & p1 & p2 & Hin & Ht & ->).
    exists type_name, l, t, p1, p2.
    split; [now left|]. split; [apply sort_by_in in Hin; exact Hin | auto].
  - apply Hrest in H.
    destruct H as (b & st & t & p1 & p2 & Hitem & Hin & Ht & ->).
    exists b, st, t, (o1 ++ p1), p2. rewrite app_assoc. auto.
Qed.

Lemma session_entries_reports session_talks :
  forall entries out result,
    NoDup (map Talk.id session_talks) ->
    (forall talk, In talk session_talks ->
                  ~ In (Talk.id talk) (OrderedDict.keys entries)) ->
    session_entries globals db conference with_votes session_talks entries
      = (out, Ok result) ->
    exists new,
      result = entries ++ new /\
      Forall2 (report_of globals db conference with_votes)
              session_talks new.
Proof.
  induction session_talks as [|talk rest IH];
    intros entries out result Hnd Hfresh H.
  - simpl in H. unfold ret, Ok in H. injection H as _ <-.
    exists []. rewrite app_nil_r. split; [reflexivity | constructor].
  - simpl in H. apply bind_ok in H.
    destruct H as (o1 & report & o2 & Hreport & H & _).
    simpl in Hnd. inversion Hnd as [|? ? Hnotin Hrest]; subst.
    rewrite (set_fresh Z.eqb Z.eqb_eq) in H
      by (apply Hfresh; now left).
    apply IH in H; [|exact Hrest|].
    + destruct H as (new & -> & Hnew).
      eexists. rewrite <- app_assoc. split; [reflexivity|].
      constructor; [|exact Hnew].
      split; [reflexivity|]. exists o1, report. auto.
    + intros t Ht. unfold OrderedDict.keys. rewrite map_app, in_app_iff.
      simpl. intros [Hin | [E | []]].
      * apply (Hfresh t); [now right | exact Hin].
      * apply Hnotin. rewrite E. apply in_map, Ht.
Qed.

Lemma build_sessions_reports items :
  forall sessions out result,
    NoDup (OrderedDict.keys items) ->
    (forall item, In item items -> NoDup (map Talk.id (snd item))) ->
    (forall k, In k (OrderedDict.keys items) ->
               ~ In k (OrderedDict.keys sessions)) ->
    build_sessions globals db conference with_votes items sessions
      = (out, Ok result) ->
    exists new,
      result = sessions ++ new /\
      Forall2
        (fun item bucket =>
           fst bucket = fst item /\
           Forall2 (report_of globals db conference with_votes)
                   (sort_by sort_key (snd item)) (snd bucket))
        (filter (fun item => truthy (snd item)) items) new.
Proof.
  induction items as [|[type_name session_talks] rest IH];
    intros sessions out result Hnd Hpk Hfresh H.
  - simpl in H. unfold ret, Ok in H. injection H as _ <-.
    exists []. rewrite app_nil_r. split; [reflexivity | constructor].
  - simpl in Hnd. inversion Hnd as [|? ? Hnotin Hrest]; subst.
    simpl in H. simpl filter.
    destruct (truthy session_talks) eqn:Et; simpl in H.
    + apply bind_ok in H.
      destruct H as (o1 & entries & o2 & Hentries & H & _).
      apply session_entries_reports in Hentries.
      * destruct Hentries as (new_entries & -> & Hnew). simpl in H.
        rewrite (set_fresh Text.eqb eqb_eq) in H
          by (apply Hfresh; now left).
        apply IH in H; [|exact Hrest| |].
        -- destruct H as (new & -> & Hbuckets).
           eexists. rewrite <- app_assoc. split; [reflexivity|].
           constructor; [|exact Hbuckets]. split; [reflexivity | exact Hnew].
        -- intros item Hitem. apply Hpk. now right.
        -- intros k Hk. unfold OrderedDict.keys.
           rewrite map_app, in_app_iff. simpl. intros [Hin | [E | []]].
           ++ apply (Hfresh k); [now right | exact Hin].
           ++ apply Hnotin. rewrite E. exact Hk.
      * eapply Permutation_NoDup;
          [apply Permutation_map; symmetry; apply sort_by_perm|].
        apply (Hpk (type_name, session_talks)). now left.
      * intros talk _ [].
    + apply IH in H; [exact H | exact Hrest | |].
      * intros item Hitem. apply Hpk. now right.
      * intros k Hk. apply Hfresh. now right.
Qed.

End Runs.

(** [handle] returns exactly when it prints the document, and the
    document is then the last thing printed, and the only document:
    a run that raises prints no document. *)
Theorem handle_returns_iff_prints globals iter db args options :
  (snd (snd (handle globals iter db args options)) = Ok tt <->
   exists sessions,
     In (PrintJson sessions)
        (fst (snd (handle globals iter db args options)))) /\
  (forall sessions,
      In (PrintJson sessions)
         (fst (snd (handle globals iter db args options))) ->
      exists out,
        fst (snd (handle globals iter db args options))
        = out ++ [PrintJson sessions] /\
        none_printed is_json out).
Proof.
  destruct args as [|conference rest].
  - split.
    + split; [discriminate | intros (sessions & [])].
    + intros sessions [].
  - rewrite handle_unfold. cbn [snd].
    pose proof (none_printed_build_sessions is_json globals db conference
                  (votes options) (fun _ => eq_refl)
                  (or_intror (fun _ => eq_refl))
                  (grouped db conference (talk_status options) iter) [])
      as Hquiet.
    destruct (build_sessions globals db conference (votes options)
                (grouped db conference (talk_status options) iter) [])
      as [out [e|built]]; cbn in *.
    + assert (Hno : forall sessions, ~ In (PrintJson sessions) out).
      { intros sessions Hin. unfold none_printed in Hquiet.
        rewrite Forall_forall in Hquiet. apply Hquiet in Hin.
        discriminate Hin. }
      split.
      * split; [discriminate | intros (sessions & Hin)].
        destruct (Hno sessions Hin).
      * intros sessions Hin. destruct (Hno sessions Hin).
    + split.
      * split; [|reflexivity]. intros _. exists built.
        apply in_or_app. right. now left.
      * intros sessions Hin. apply in_app_iff in Hin.
        destruct Hin as [Hin | [[= <-] | []]].
        -- unfold none_printed in Hquiet. rewrite Forall_forall in Hquiet.
           apply Hquiet in Hin. discriminate Hin.
        -- exists out. auto.
Qed.

(** [handle] prints the document exactly when it is given a conference
    and, for every talk in a bucket, [has_ticket] answers for each speaker
    and each speaker has a profile. *)
Theorem handle_prints_iff_reportable globals iter db args options :
  (exists sessions,
      In (PrintJson sessions)
         (fst (snd (handle globals iter db args options)))) <->
  exists conference rest,
    args = conference :: rest /\
    forall talk,
      selected db conference (talk_status options) iter talk ->
      reportable db talk.
Proof.
  split.
  - intros (sessions & Hin). apply handle_prints_json in Hin.
    destruct Hin as (conference & rest & out & -> & H).
    exists conference, rest. split; [reflexivity|].
    intros talk (bucket & session_talks & Hitem & Htalk).
    eapply build_sessions_all_reportable; eassumption.
  - intros (conference & rest & -> & H).
    destruct (build_sessions_returns globals db conference (votes options)
                (grouped db conference (talk_status options) iter) [])
      as (out & sessions & E).
    + intros bucket session_talks talk Hitem Hin. apply H.
      exists bucket, session_talks. auto.
    + exists sessions. apply handle_prints_json.
      exists conference, rest, out. auto.
Qed.

(** The exceptions of [handle]: the [CommandError] of a missing
    conference, raised before anything is printed; the exception of
    [has_ticket] for a speaker of a talk in a bucket, whose traceback is
    the last thing printed; and the [AttributeError] of a speaker, of a
    talk in a bucket, who has no profile. *)
Theorem handle_exceptions globals iter db args options e :
  snd (snd (handle globals iter db args options)) = Raise e ->
  (args = [] /\ e = CommandError "conference not specified" /\
   fst (snd (handle globals iter db args options)) = []) \/
  (exists conference rest talk,
      args = conference :: rest /\
      selected db conference (talk_status options) iter talk /\
      ((exists speaker out,
           In speaker (Talk.get_all_speakers talk) /\
           has_ticket db (Speaker.user speaker) = Raise e /\
           fst (snd (handle globals iter db args options))
           = out ++ [PrintTraceback e]) \/
       (e = AttributeError /\
        exists speaker,
          In speaker (Talk.get_all_speakers talk) /\
          User.attendeeprofile (Speaker.user speaker) = None))).
Proof.
  destruct args as [|conference rest].
  - intros [= <-]. left. auto.
  - rewrite handle_unfold. cbn [snd]. intros H. right.
    destruct (bind (build_sessions globals db conference (votes options)
                      (grouped db conference (talk_status options) iter) [])
                   (fun sessions => print (PrintJson sessions)))
      as [out r] eqn:Eb.
    cbn in H. subst r. apply bind_raise in Eb.
    destruct Eb as [Eb | (o1 & sessions & o2 & _ & Hp & _)];
      [|discriminate Hp].
    apply build_sessions_raise in Eb.
    destruct Eb as (bucket & session_talks & talk & p1 & p2
                    & Hitem & Hin & Hreport & ->).
    exists conference, rest, talk. split; [reflexivity|].
    split; [exists bucket, session_talks; auto|].
    apply talk_report_raise in Hreport.
    destruct Hreport as [(speaker & out' & Hs & He & ->) | Hattr].
    + left. exists speaker, (p1 ++ out'). rewrite app_assoc. auto.
    + right. exact Hattr.
Qed.

Lemma handle_exceptions_witness :
  snd (handle module_globals ExampleRun.iter ExampleEdge.failing
         ExampleRun.args (ExampleRun.options false))
  = ([PrintTraceback (RuntimeError [Example.tc_dave_1; Example.tc_dave_2])],
     Raise (RuntimeError [Example.tc_dave_1; Example.tc_dave_2])) /\
  exists talk,
    selected ExampleEdge.failing (u "ep2015") (u "accepted")
      ExampleRun.iter talk.
Proof.
  split; [reflexivity|].
  destruct (handle_exceptions module_globals ExampleRun.iter
              ExampleEdge.failing ExampleRun.args (ExampleRun.options false)
              (RuntimeError [Example.tc_dave_1; Example.tc_dave_2])
              eq_refl)
    as [(Hargs & _) | (conference & rest & talk & Hargs & Hsel & _)].
  - discriminate Hargs.
  - injection Hargs as <- _. exists talk. exact Hsel.
Defined.

(** ** The entries of the document *)

Lemma talk_schedule_empty_iff globals talk timerange :
  snd (talk_schedule globals talk) = Ok timerange ->
  (timerange = [] <-> Talk.get_event talk = None).
Proof.
  unfold talk_schedule, Ok. destruct (Talk.get_event talk) as [event|].
  - cbn. intros [= <-]. split; [|discriminate]. intros H.
    apply app_eq_nil in H. destruct H as [_ H]. discriminate H.
  - destruct (VERBOSE globals); cbn; intros [= <-]; tauto.
Qed.

(** Every entry of the document is the report of a talk of the store
    that has the conference and the status asked for, under that talk's
    key: its [have_tickets] lists [has_ticket] of the speakers in order,
    it has [user_votes], the votes of the talk, exactly when the votes are
    asked for, and its [timerange] is empty exactly when the talk has no
    event. *)
Theorem document_entries_are_reports globals iter db args options sessions :
  NoDup (map Talk.id (store_talks db)) ->
  Permutation (type_groups_items iter) type_groups ->
  In (PrintJson sessions) (fst (snd (handle globals iter db args options))) ->
  forall bucket entries id report,
    In (bucket, entries) sessions ->
    In (id, report) entries ->
    exists talk,
      In talk (store_talks db) /\
      hd_error args = Some (Talk.conference talk) /\
      Talk.status talk = talk_status options /\
      Talk.id talk = id /\
      Report.id report = id /\
      Forall2 (fun speaker b => has_ticket db (Speaker.user speaker) = Ok b)
              (Talk.get_all_speakers talk) (Report.have_tickets report) /\
      Report.user_votes report =
        (if votes options then Some (talk_votes db talk) else None) /\
      Report.companies report = encode_utf8 (speaker_companies talk) /\
      (Report.timerange report = [] <-> Talk.get_event talk = None).
Proof.
  intros Hpk Hperm Hprinted bucket entries id report Hbucket Hentry.
  apply handle_prints_json in Hprinted.
  destruct Hprinted as (conference & rest & out & -> & Hbuild).
  apply build_sessions_reports in Hbuild;
    [ | apply grouped_keys_NoDup
      | intros item; apply (grouped_ids_NoDup iter db options Hpk Hperm)
      | intros k _ [] ].
  destruct Hbuild as (new & -> & Hbuckets). simpl in Hbucket.
  destruct (Forall2_In_r _ _ _ _ _ _ Hbuckets Hbucket)
    as ([b session_talks] & Hitem & Hname & Hentries).
  simpl in Hname, Hentries. subst b. apply filter_In in Hitem.
  destruct Hitem as [Hitem _].
  destruct (Forall2_In_r _ _ _ _ _ _ Hentries Hentry)
    as (talk & Hin & Hid & o & r & Hreport & Hr).
  simpl in Hid, Hr. apply sort_by_in in Hin.
  apply talk_report_fields in Hreport.
  destruct Hreport as (Htkt & Hsched & _ & Hrid & Hcomp & _ & _ & Hvotes).
  apply have_tickets_loop_ok in Htkt.
  destruct Htkt as (_ & bs & Ebs & Hall). simpl in Ebs. subst bs.
  apply talk_schedule_empty_iff in Hsched.
  assert (Hquery : In talk (store_talks db) /\
                   Talk.conference talk = conference /\
                   Talk.status talk = talk_status options).
  { apply in_grouped in Hitem.
    destruct Hitem as [(types & _ & ->) | (code & _ & _ & ->)].
    - apply in_grp_talks in Hin. tauto.
    - apply in_talks_filter in Hin. tauto. }
  destruct Hquery as (Hstore & Hconf & Hstatus).
  exists talk. rewrite Hconf.
  split; [exact Hstore|]. split; [reflexivity|]. split; [exact Hstatus|].
  split; [symmetry; exact Hid|].
  destruct (votes options); subst report; cbn;
    rewrite ?Hvotes; repeat split; auto; try congruence;
    apply Hsched.
Qed.

Lemma document_entries_are_reports_witness :
  exists talk report,
    In talk (store_talks ExampleRun.db) /\
    Talk.id talk = 1%Z /\
    Forall2 (fun speaker b =>
               has_ticket ExampleRun.db (Speaker.user speaker) = Ok b)
            (Talk.get_all_speakers talk) (Report.have_tickets report) /\
    Report.have_tickets report = [true; false] /\
    Report.user_votes report = None.
Proof.
  pose proof (fun entries report =>
                document_entries_are_reports
                  module_globals ExampleRun.iter ExampleRun.db
                  ExampleRun.args (ExampleRun.options true)
                  ExampleRun.sessions
                  example_run_keys (Permutation_refl _) example_run_printed
                  (u "talk") entries 1%Z report) as H.
  edestruct H as (talk & Hstore & _ & _ & Hid & _ & Htkt & Hvotes & _).
  - vm_compute. right. left. reflexivity.
  - right. left. reflexivity.
  - exists talk. eexists. split; [exact Hstore|]. split; [exact Hid|].
    split; [exact Htkt|]. split; [reflexivity | exact Hvotes].
Defined.

(** ** Talks that are left out, and talks with an admin type *)

(** A talk without admin type whose type belongs to none of the six
    groups has no entry in the document (the admin types being taken not
    to include the empty code). *)
Theorem talk_of_unknown_type_is_omitted
    globals iter db args options sessions talk :
  NoDup (map Talk.id (store_talks db)) ->
  Permutation (type_groups_items iter) type_groups ->
  (forall adm_type type_name,
      In (adm_type, type_name) (TALK_ADMIN_TYPE_items iter) ->
      adm_type <> []) ->
  In (PrintJson sessions) (fst (snd (handle globals iter db args options))) ->
  In talk (store_talks db) ->
  Talk.admin_type talk = [] ->
  ~ In (Talk.type talk) (flat_map snd type_groups) ->
  forall bucket, ~ appears sessions bucket talk.
Proof.
  intros Hpk Hperm Hcodes Hprinted Hstore Hadmin Htype bucket Happears.
  apply (appears_iff globals iter db args options sessions
           Hpk Hperm Hprinted bucket talk Hstore) in Happears.
  destruct Happears as (conference & session_talks & _ & Hitem & Hin).
  apply in_grouped in Hitem.
  destruct Hitem as [(types & Hg & ->) | (code & Hc & _ & ->)].
  - apply in_grp_talks in Hin. apply Htype. apply in_flat_map.
    exists (bucket, types). split; [|tauto].
    eapply Permutation_in; [exact Hperm | exact Hg].
  - apply in_talks_filter in Hin. destruct Hin as (_ & _ & _ & E).
    apply eqb_eq in E. destruct (Hcodes _ _ Hc). congruence.
Qed.

Lemma example_edge_keys : NoDup (map Talk.id (store_talks ExampleEdge.run_db)).
Proof.
  repeat (constructor;
          [ let H := fresh in
            intros H; repeat (destruct H as [H|H]; [discriminate H|]);
            exact H
          | ]).
  constructor.
Defined.

Lemma example_edge_printed :
  In (PrintJson ExampleEdge.sessions)
     (fst (snd (handle module_globals ExampleEdge.iter ExampleEdge.run_db
                  ExampleRun.args (ExampleRun.options false)))).
Proof. left. reflexivity. Defined.

Lemma example_edge_codes adm_type type_name :
  In (adm_type, type_name) (TALK_ADMIN_TYPE_items ExampleEdge.iter) ->
  adm_type <> [].
Proof.
  intros [H | [H | []]]; injection H as <- _; intros E; discriminate E.
Defined.

Lemma talk_of_unknown_type_is_omitted_witness :
  In ExampleEdge.odd_type (store_talks ExampleEdge.run_db) /\
  (forall bucket, ~ appears ExampleEdge.sessions bucket ExampleEdge.odd_type).
Proof.
  split; [simpl; tauto|].
  apply (talk_of_unknown_type_is_omitted
           module_globals ExampleEdge.iter ExampleEdge.run_db
           ExampleRun.args (ExampleRun.options false) ExampleEdge.sessions
           ExampleEdge.odd_type
           example_edge_keys (Permutation_refl _) example_edge_codes
           example_edge_printed).
  - simpl. tauto.
  - reflexivity.
  - vm_compute. intros H.
    repeat (destruct H as [H|H]; [discriminate H|]). exact H.
Defined.

(** A talk with an admin type has no entry in the document when its admin
    type is not in [TALK_ADMIN_TYPE], or is there under the name of one of
    the six groups: the group's talks take the bucket of that name. *)
Theorem talk_of_shadowed_admin_type_is_omitted
    globals iter db args options sessions talk :
  NoDup (map Talk.id (store_talks db)) ->
  Permutation (type_groups_items iter) type_groups ->
  In (PrintJson sessions) (fst (snd (handle globals iter db args options))) ->
  In talk (store_talks db) ->
  Talk.admin_type talk <> [] ->
  (forall type_name,
      In (Talk.admin_type talk, type_name) (TALK_ADMIN_TYPE_items iter) ->
      In type_name (map fst type_groups)) ->
  forall bucket, ~ appears sessions bucket talk.
Proof.
  intros Hpk Hperm Hprinted Hstore Hadmin Hnames bucket Happears.
  apply (appears_iff globals iter db args options sessions
           Hpk Hperm Hprinted bucket talk Hstore) in Happears.
  destruct Happears as (conference & session_talks & _ & Hitem & Hin).
  apply in_grouped in Hitem.
  destruct Hitem as [(types & Hg & ->) | (code & Hc & Hname & ->)].
  - apply in_grp_talks in Hin. tauto.
  - apply in_talks_filter in Hin. destruct Hin as (_ & _ & _ & E).
    apply eqb_eq in E. subst code. apply Hname.
    eapply Permutation_in;
      [apply Permutation_map; symmetry; exact Hperm | apply Hnames, Hc].
Qed.

Lemma talk_of_shadowed_admin_type_is_omitted_witness :
  (forall bucket, ~ appears ExampleEdge.sessions bucket ExampleEdge.shadowed) /\
  (forall bucket, ~ appears ExampleEdge.sessions bucket ExampleEdge.odd_admin).
Proof.
  pose proof (fun talk =>
                talk_of_shadowed_admin_type_is_omitted
                  module_globals ExampleEdge.iter ExampleEdge.run_db
                  ExampleRun.args (ExampleRun.options false)
                  ExampleEdge.sessions talk
                  example_edge_keys (Permutation_refl _)
                  example_edge_printed) as H.
  split; apply H.
  - simpl. tauto.
  - intros E. discriminate E.
  - intros type_name [E | [E | []]]; [discriminate E|].
    injection E as <-. vm_compute. tauto.
  - simpl. tauto.
  - intros E. discriminate E.
  - intros type_name [E | [E | []]]; discriminate E.
Defined.

(** A talk of the conference and status asked for, whose admin type is in
    [TALK_ADMIN_TYPE] under a name that is not the name of a group, has an
    entry in the bucket of that name, the names of the admin types being
    distinct. *)
Theorem talk_with_admin_type_appears
    globals iter db args options sessions talk type_name :
  NoDup (map Talk.id (store_talks db)) ->
  Permutation (type_groups_items iter) type_groups ->
  In (PrintJson sessions) (fst (snd (handle globals iter db args options))) ->
  NoDup (map snd (TALK_ADMIN_TYPE_items iter)) ->
  In talk (store_talks db) ->
  hd_error args = Some (Talk.conference talk) ->
  Talk.status talk = talk_status options ->
  In (Talk.admin_type talk, type_name) (TALK_ADMIN_TYPE_items iter) ->
  ~ In type_name (map fst type_groups) ->
  appears sessions type_name talk.
Proof.
  intros Hpk Hperm Hprinted Hnames Hstore Hconf Hstatus Hcode Hgroup.
  apply (appears_iff globals iter db args options sessions
           Hpk Hperm Hprinted type_name talk Hstore).
  exists (Talk.conference talk),
    (talks_filter db (Talk.conference talk) (talk_status options)
       (fun t => Text.eqb (Talk.admin_type t) (Talk.admin_type talk))).
  split; [exact Hconf|]. split.
  - unfold grouped.
    rewrite group_by_type_set_all, group_by_admin_type_set_all.
    apply (in_set_all_kept Text.eqb eqb_eq).
    + apply (NoDup_keys_set_all Text.eqb eqb_eq). constructor.
    + apply (in_set_all_assigned Text.eqb eqb_eq); [constructor | |].
      * unfold admin_assignments. rewrite map_map. exact Hnames.
      * unfold admin_assignments. apply in_map_iff.
        exists (Talk.admin_type talk, type_name). auto.
    + unfold type_assignments. rewrite map_map. simpl. intros H.
      apply Hgroup.
      eapply Permutation_in; [apply Permutation_map; exact Hperm | exact H].
  - apply in_talks_filter. repeat split; auto. apply eqb_refl.
Qed.

Lemma talk_with_admin_type_appears_witness :
  appears ExampleRun.sessions (u "Opening session") ExampleRun.opening.
Proof.
  apply (talk_with_admin_type_appears
           module_globals ExampleRun.iter ExampleRun.db ExampleRun.args
           (ExampleRun.options true) ExampleRun.sessions ExampleRun.opening
           (u "Opening session")
           example_run_keys (Permutation_refl _) example_run_printed).
  - vm_compute.
    repeat (constructor;
            [ let H := fresh in
              intros H; repeat (destruct H as [H|H]; [discriminate H|]);
              exact H
            | ]).
    constructor.
  - simpl. tauto.
  - reflexivity.
  - reflexivity.
  - left. reflexivity.
  - vm_compute. intros H.
    repeat (destruct H as [H|H]; [discriminate H|]). exact H.
Defined.

(** ** The order of the buckets *)

Lemma filter_comm (A : Type) (p q : A -> bool) l :
  filter p (filter q l) = filter q (filter p l).
Proof.
  induction l as [|x rest IH]; [reflexivity|]. simpl.
  destruct (p x) eqn:Ep, (q x) eqn:Eq; simpl; rewrite ?Ep, ?Eq, IH;
    reflexivity.
Qed.

Lemma filter_idempotent (A : Type) (p : A -> bool) l :
  filter p (filter p l) = filter p l.
Proof.
  induction l as [|x rest IH]; [reflexivity|]. simpl.
  destruct (p x) eqn:Ep; simpl; rewrite ?Ep, IH; reflexivity.
Qed.

Lemma filter_set_of_drop k A R :
  filter (fun y => negb (Text.eqb y k)) (set_of (A ++ k :: R)) =
  filter (fun y => negb (Text.eqb y k)) (set_of (A ++ R)).
Proof.
  induction A as [|a A' IH]; simpl.
  - rewrite eqb_refl. simpl. apply filter_idempotent.
  - rewrite (filter_comm _ (fun y => negb (Text.eqb y k))
               (fun y => negb (Text.eqb y a)) (set_of (A' ++ k :: R))).
    rewrite (filter_comm _ (fun y => negb (Text.eqb y k))
               (fun y => negb (Text.eqb y a)) (set_of (A' ++ R))).
    rewrite IH. reflexivity.
Qed.

Lemma set_of_drop_repeated k A R :
  In k A -> set_of (A ++ k :: R) = set_of (A ++ R).
Proof.
  induction A as [|a A' IH]; intros Hin; [destruct Hin|]. simpl.
  destruct (list_eq_dec N.eq_dec a k) as [-> | Hne].
  - rewrite filter_set_of_drop. reflexivity.
  - destruct Hin as [E | Hin]; [congruence|]. rewrite (IH Hin).
    reflexivity.
Qed.

Lemma set_of_NoDup_fixpoint l : NoDup l -> set_of l = l.
Proof.
  induction 1 as [|x rest Hnotin Hnd IH]; [reflexivity|]. simpl.
  rewrite IH. f_equal. apply forallb_filter_id. apply forallb_forall.
  intros y Hy. apply negb_true_iff, eqb_neq. intros ->. contradiction.
Qed.

Lemma set_of_filter a l :
  filter (fun y => negb (Text.eqb y a)) (set_of l) =
  set_of (filter (fun y => negb (Text.eqb y a)) l).
Proof.
  induction l as [|x rest IH]; [reflexivity|]. simpl.
  destruct (Text.eqb x a) eqn:E; simpl.
  - apply eqb_eq in E. subst x. rewrite filter_idempotent. exact IH.
  - rewrite filter_comm, IH. reflexivity.
Qed.

Lemma set_of_app_set_of_bounded n :
  forall A B, (length A <= n)%nat -> set_of (set_of A ++ B) = set_of (A ++ B).
Proof.
  induction n as [|n IH]; intros A B Hlen.
  - destruct A; [reflexivity | simpl in Hlen; lia].
  - destruct A as [|a A']; [reflexivity|]. simpl. f_equal.
    rewrite !set_of_filter, !filter_app, set_of_filter, filter_idempotent.
    apply IH. simpl in Hlen.
    eapply Nat.le_trans; [apply filter_length_le | lia].
Qed.

Lemma set_of_app_set_of A B : set_of (set_of A ++ B) = set_of (A ++ B).
Proof. apply (set_of_app_set_of_bounded (length A)). lia. Qed.

Lemma keys_set_present (V : Type) (d : OrderedDict.t unicode V) k v :
  In k (OrderedDict.keys d) ->
  OrderedDict.keys (OrderedDict.set Text.eqb d k v) = OrderedDict.keys d.
Proof.
  induction d as [|[k' v'] rest IH]; simpl; intros Hin; [destruct Hin|].
  destruct (Text.eqb k' k) eqn:E; [reflexivity|]. simpl in *.
  apply eqb_neq in E. destruct Hin as [Hk | Hin]; [congruence|].
  rewrite (IH Hin). reflexivity.
Qed.

(** The keys after a run of assignments: the keys there were, then the
    keys assigned, each at its first assignment. *)
Lemma keys_set_all (V : Type) kvs :
  forall d : OrderedDict.t unicode V,
    NoDup (OrderedDict.keys d) ->
    OrderedDict.keys (OrderedDict.set_all Text.eqb d kvs) =
    set_of (OrderedDict.keys d ++ map fst kvs).
Proof.
  induction kvs as [|[k v] rest IH]; intros d Hd; simpl.
  - rewrite app_nil_r. symmetry. apply set_of_NoDup_fixpoint, Hd.
  - change (fold_left
              (fun d kv => OrderedDict.set Text.eqb d (fst kv) (snd kv))
              rest (OrderedDict.set Text.eqb d k v))
      with (OrderedDict.set_all Text.eqb (OrderedDict.set Text.eqb d k v)
              rest).
    rewrite IH by (apply (NoDup_keys_set Text.eqb eqb_eq), Hd).
    destruct (in_dec (list_eq_dec N.eq_dec) k (OrderedDict.keys d))
      as [Hin | Hnotin].
    + rewrite (keys_set_present _ _ _ _ Hin).
      symmetry. apply set_of_drop_repeated, Hin.
    + rewrite (set_fresh Text.eqb eqb_eq _ _ _ Hnotin).
      unfold OrderedDict.keys. rewrite map_app, <- app_assoc. reflexivity.
Qed.

(** The buckets of the document are the buckets of [talks] that are not
    empty, in the order of [talks]; and the keys of [talks] are the names
    of the admin types in the order of iteration, then the names of the
    groups in theirs, each name at its first occurrence. *)
Theorem bucket_order globals iter db args options sessions :
  NoDup (map Talk.id (store_talks db)) ->
  Permutation (type_groups_items iter) type_groups ->
  In (PrintJson sessions) (fst (snd (handle globals iter db args options))) ->
  exists conference,
    hd_error args = Some conference /\
    OrderedDict.keys sessions =
      OrderedDict.keys
        (filter (fun item => truthy (snd item))
                (grouped db conference (talk_status options) iter)) /\
    OrderedDict.keys (grouped db conference (talk_status options) iter) =
      set_of (map snd (TALK_ADMIN_TYPE_items iter) ++
              map fst (type_groups_items iter)).
Proof.
  intros Hpk Hperm Hprinted.
  destruct (printed_buckets globals iter db args options sessions
              Hpk Hperm Hprinted)
    as (conference & rest & -> & Hbuckets).
  exists conference. split; [reflexivity|]. split.
  - clear - Hbuckets. unfold OrderedDict.keys.
    induction Hbuckets as [|item bucket items buckets [Hname _] _ IH];
      [reflexivity|].
    simpl. rewrite Hname, IH. reflexivity.
  - unfold grouped.
    rewrite group_by_type_set_all, group_by_admin_type_set_all.
    rewrite keys_set_all
      by (apply (NoDup_keys_set_all Text.eqb eqb_eq); constructor).
    rewrite keys_set_all by constructor. simpl.
    unfold admin_assignments, type_assignments. rewrite !map_map. simpl.
    set (names := map (fun item : unicode * unicode => snd item)
                      (TALK_ADMIN_TYPE_items iter)).
    set (groups := map (fun item : unicode * list unicode => fst item)
                       (type_groups_items iter)).
    apply set_of_app_set_of.
Qed.

Lemma bucket_order_witness :
  OrderedDict.keys ExampleEdge.sessions =
    [u "Opening session"; u "poster"; u "talk"] /\
  OrderedDict.keys
    (grouped ExampleEdge.run_db (u "ep2015") (u "accepted") ExampleEdge.iter)
  = set_of (map snd (TALK_ADMIN_TYPE_items ExampleEdge.iter) ++
            map fst (type_groups_items ExampleEdge.iter)).
Proof.
  split; [reflexivity|].
  destruct (bucket_order module_globals ExampleEdge.iter ExampleEdge.run_db
              ExampleRun.args (ExampleRun.options false)
              ExampleEdge.sessions
              example_edge_keys (Permutation_refl _) example_edge_printed)
    as (conference & Hargs & _ & Hkeys).
  injection Hargs as <-. exact Hkeys.
Defined.

(** ** Tickets that went to someone else *)

(** A user to whose email no ticket is assigned, and each of whose
    tickets with a fare code in ['T'] has one row that either belongs to
    another user or is reassigned to another email, has no ticket. *)
Theorem has_ticket_all_with_someone_else db user :
  get_tickets_assigned_to db user = [] ->
  (forall ticket,
      In ticket (user_tickets db user) ->
      conference_ticket ticket = true ->
      exists row,
        ticket_conferences_of db ticket = [row] /\
        (Ticket.user_id (TicketConference.ticket row) <> User.id user \/
         (TicketConference.assigned_to row <> [] /\
          TicketConference.assigned_to row <> User.email user))) ->
  has_ticket db user = Ok false.
Proof.
  intros Hnone Hall. unfold has_ticket. rewrite Hnone. cbn [truthy].
  apply has_ticket_loop_false. intros ticket Hin Hconf.
  destruct (Hall ticket Hin Hconf) as (row & Hrow & Hcase).
  unfold is_ticket_assigned_to_someone_else. rewrite Hrow.
  cbn [length Nat.ltb Nat.leb].
  destruct (Ticket.user_id (TicketConference.ticket row) =? User.id user)%Z
    eqn:Eowner; [|reflexivity].
  apply Z.eqb_eq in Eowner.
  destruct Hcase as [Hother | [Hassigned Hemail]]; [congruence|].
  apply truthy_true in Hassigned. apply eqb_neq in Hemail.
  cbn [negb]. rewrite Hassigned, Hemail. reflexivity.
Qed.

Lemma has_ticket_all_with_someone_else_witness :
  has_ticket Example.db Example.bob = Ok false.
Proof.
  apply has_ticket_all_with_someone_else; [reflexivity|].
  intros ticket [<- | []] _. exists Example.tc_bob.
  split; [reflexivity|]. right.
  split; vm_compute; intros H; discriminate H.
Defined.
